(** * Reader: event iteration, variant selection and weight caching

    A shallow embedding of [src/Reader/Reader.cpp] (class [Reader]) and the
    properties of its iteration protocol, its accessors and its weight cache.

    C++ [double] values are Rocq's primitive binary64 floats, so products and
    comparisons are the IEEE ones the program computes.  Exceptions and
    undefined behaviour are explicit results of the operations that can
    produce them. *)

From Stdlib Require Import ZArith Floats.
From stdpp Require Import base tactics option list sorting strings gmap.

Local Open Scope Z_scope.

(** ** Doubles *)

Abbreviation double := PrimFloat.float.

Definition dbl_one : double := 1%float.
Definition dbl_zero : double := 0%float.

(** [a != 0.] of C++: IEEE inequality (true for a NaN, false for -0). *)
Definition dbl_neq_zero (a : double) : bool := negb (PrimFloat.eqb a dbl_zero).

(** [a >= b] on doubles. *)
Definition dbl_ge (a b : double) : Prop := PrimFloat.leb b a = true.

Definition not_nan (a : double) : Prop := PrimFloat.is_nan a = false.

#[global] Instance double_inhabited : Inhabited double := populate dbl_zero.

(** ** [std::sort] *)

Section std_sort.
Context {A : Type} (lt : A -> A -> bool).

(** Insertion of one element in front of the first element that does not
    precede it. *)
Fixpoint sort_insert (x : A) (l : list A) : list A :=
  match l with
  | [] => [x]
  | y :: l' => if lt y x then y :: sort_insert x l' else x :: y :: l'
  end.

(** [std::sort(first, last)]: the range rearranged in ascending order of
    [operator<].  The standard fixes the result up to the order of
    equivalent elements; this is the insertion sort. *)
Definition std_sort (l : list A) : list A := foldr sort_insert [] l.

(** [std::sort(v.rbegin(), v.rend())]: the reversed view of the vector is
    put in ascending order, which leaves the vector itself descending. *)
Definition sort_reversed (v : list A) : list A := reverse (std_sort (reverse v)).
End std_sort.

(** ** Results of operations that can throw or leave defined behaviour *)

(** The only exception type the file throws. *)
Inductive exn := runtime_error (what : string).

Inductive outcome (A : Type) :=
  | Ok (a : A)
  | Throw (e : exn)     (* an exception leaves the function *)
  | Terminate           (* an exception reaches a [noexcept] boundary *)
  | Undefined.          (* the C++ standard gives the step no meaning *)
Arguments Ok {A} a.
Arguments Throw {A} e.
Arguments Terminate {A}.
Arguments Undefined {A}.

#[global] Instance outcome_ret : MRet outcome := λ A a, Ok a.
#[global] Instance outcome_bind : MBind outcome := λ A B f m,
  match m with
  | Ok a => f a
  | Throw e => Throw e
  | Terminate => Terminate
  | Undefined => Undefined
  end.

(** ** Systematic variations *)

(** Modelled from the spec: the enumerations [SystType] and [SystDirection]
    are declared outside [Reader.cpp].  The code names [SystType::Nominal] and
    [SystType::JEC]; the spec lists further model-specific types, which are
    the [OtherSyst] here. *)
Inductive SystType := Nominal | JEC | OtherSyst (tag : nat).
Inductive SystDirection := Up | Down.

#[global] Instance SystType_eq_dec : EqDecision SystType.
Proof. solve_decision. Defined.
#[global] Instance SystDirection_eq_dec : EqDecision SystDirection.
Proof. solve_decision. Defined.

(** ** Physics objects *)

(** Modelled from the spec: [Lepton], [Jet] and [MET] are declared outside
    [Reader.cpp]; they are plain value records holding the constructor
    arguments, ordered by transverse momentum. *)
Record Lepton := mkLepton {
  lep_flavour : Z; lep_pt : double; lep_eta : double; lep_phi : double; lep_iso : double }.

Record Jet := mkJet {
  jet_pt : double; jet_eta : double; jet_phi : double; jet_btag : double; jet_flavour : Z }.

Record MET := mkMET { met_pt : double; met_phi : double }.

(** [operator<] of the two collections' element types. *)
Definition Lepton_lt (a b : Lepton) : bool := PrimFloat.ltb (lep_pt a) (lep_pt b).
Definition Jet_lt (a b : Jet) : bool := PrimFloat.ltb (jet_pt a) (jet_pt b).

(** The b-tag reweighting model, member [csvReweighter]: its class is declared
    outside [Reader.cpp], so its one method used here is a parameter. *)
Record CSVReweighter := {
  CalculateJetWeight : Jet → SystType → SystDirection → double }.

(** ** Read buffers and the storage they are filled from *)

(** Buffers of the branches nlepton, lept_pt, lept_eta, lept_phi, lept_iso,
    lept_flav. *)
Record LeptonBuffers := {
  lepSize : Z;
  lepPt : list double; lepEta : list double; lepPhi : list double;
  lepIso : list double; lepFlavour : list Z }.

(** Buffers of one jet block: njets, jet_pt, jet_eta, jet_phi, jet_btagdiscri,
    jet_flav, and the same for the jesup and jesdown blocks. *)
Record JetBuffers := {
  jetSize : Z;
  jetPt : list double; jetEta : list double; jetPhi : list double;
  jetBTag : list double; jetFlavour : list Z }.

(** All read buffers of a [Reader]; one entry of a tree holds a value for
    each.  The last seven are bound for simulation only. *)
Record Buffers := {
  lepBuf : LeptonBuffers;
  jetBuf : JetBuffers;
  metPt : double; metPhi : double;
  nPV : Z;
  jetJECUpBuf : JetBuffers;
  jetJECDownBuf : JetBuffers;
  metJECUpPt : double; metJECUpPhi : double;
  metJECDownPt : double; metJECDownPhi : double;
  rawWeight : double }.

(** A tree is the sequence of its entries; [GetEntries] is its length. *)
Abbreviation TTree := (list Buffers).

(** What [TFile::Get] finds under a name; the [dynamic_cast<TTree *>] keeps
    trees only. *)
Inductive TObject := ObjTree (t : TTree) | ObjOther.

Record TFile := {
  IsZombie : bool;
  GetTitle : string;
  objects : gmap string TObject }.

(** ** The state of a [Reader] *)

(* Records of the state are equal to the record of their fields. *)
#[local] Set Primitive Projections.

(** The two counters are integers without a bound: their C++ types are
    declared outside [Reader.cpp], and [curEntry] stays within the entry
    count wherever a property below depends on it. *)
Record Cursor := {
  curTreeNameIt : nat;        (* position in [treeNames]; its length is [end()] *)
  curTree : option TTree;     (* [unique_ptr<TTree>] *)
  nEntries : Z;
  curEntry : Z }.

Record Event := {
  leptons : list Lepton;
  jets : list Jet;
  jetsJECUp : list Jet;
  jetsJECDown : list Jet;
  met : MET;
  metJECUp : MET;
  metJECDown : MET }.

Record Selection := {
  curSystType : SystType;
  curSystDirection : SystDirection;
  applyBTagReweighting : bool }.

Record WeightCache := { weight : double; weightCached : bool }.

Record Reader := {
  srcFile : TFile;
  treeNames : list string;
  isMC : bool;
  csvReweighter : CSVReweighter;
  cursor : Cursor;
  (* which object [curTree] points to: the key under which [srcFile] holds it *)
  curTreeKey : option string;
  buffers : Buffers;
  event : Event;
  selection : Selection;
  cache : WeightCache;
  (* ghost: the calls made to [csvReweighter.CalculateJetWeight], oldest first *)
  csvCalls : list (Jet * SystType * SystDirection) }.

#[local] Unset Primitive Projections.

Definition with_cursor (c : Cursor) (r : Reader) : Reader :=
  {| srcFile := srcFile r; treeNames := treeNames r; isMC := isMC r;
     csvReweighter := csvReweighter r; cursor := c; curTreeKey := curTreeKey r;
     buffers := buffers r;
     event := event r; selection := selection r; cache := cache r;
     csvCalls := csvCalls r |}.

Definition with_buffers (b : Buffers) (r : Reader) : Reader :=
  {| srcFile := srcFile r; treeNames := treeNames r; isMC := isMC r;
     csvReweighter := csvReweighter r; cursor := cursor r; curTreeKey := curTreeKey r;
     buffers := b;
     event := event r; selection := selection r; cache := cache r;
     csvCalls := csvCalls r |}.

Definition with_event (e : Event) (r : Reader) : Reader :=
  {| srcFile := srcFile r; treeNames := treeNames r; isMC := isMC r;
     csvReweighter := csvReweighter r; cursor := cursor r; curTreeKey := curTreeKey r;
     buffers := buffers r;
     event := e; selection := selection r; cache := cache r;
     csvCalls := csvCalls r |}.

Definition with_selection (s : Selection) (r : Reader) : Reader :=
  {| srcFile := srcFile r; treeNames := treeNames r; isMC := isMC r;
     csvReweighter := csvReweighter r; cursor := cursor r; curTreeKey := curTreeKey r;
     buffers := buffers r;
     event := event r; selection := s; cache := cache r;
     csvCalls := csvCalls r |}.

Definition with_cache (w : WeightCache) (r : Reader) : Reader :=
  {| srcFile := srcFile r; treeNames := treeNames r; isMC := isMC r;
     csvReweighter := csvReweighter r; cursor := cursor r; curTreeKey := curTreeKey r;
     buffers := buffers r;
     event := event r; selection := selection r; cache := w;
     csvCalls := csvCalls r |}.

Definition with_csvCalls (l : list (Jet * SystType * SystDirection)) (r : Reader) : Reader :=
  {| srcFile := srcFile r; treeNames := treeNames r; isMC := isMC r;
     csvReweighter := csvReweighter r; cursor := cursor r; curTreeKey := curTreeKey r;
     buffers := buffers r;
     event := event r; selection := selection r; cache := cache r;
     csvCalls := l |}.

Definition with_curTreeKey (k : option string) (r : Reader) : Reader :=
  {| srcFile := srcFile r; treeNames := treeNames r; isMC := isMC r;
     csvReweighter := csvReweighter r; cursor := cursor r; curTreeKey := k;
     buffers := buffers r;
     event := event r; selection := selection r; cache := cache r;
     csvCalls := csvCalls r |}.

(** [weightCached = b;] *)
Definition set_weightCached (b : bool) (r : Reader) : Reader :=
  with_cache {| weight := weight (cache r); weightCached := b |} r.

(** [weight = w;] *)
Definition set_weight (w : double) (r : Reader) : Reader :=
  with_cache {| weight := w; weightCached := weightCached (cache r) |} r.

(** ** The member functions *)

Definition dquote : string := String (Ascii.ascii_of_nat 34) EmptyString.

Definition msg_bad_source : string := "The source file does not exist or is corrupted.".

Definition msg_no_tree (name title : string) : string :=
  "Cannot find tree " +:+ dquote +:+ name +:+ dquote +:+ " in file " +:+ dquote
    +:+ title +:+ dquote +:+ ".".

(** [*curTreeNameIt]; the past-the-end iterator cannot be dereferenced. *)
Definition deref_curTreeNameIt (r : Reader) : outcome string :=
  match treeNames r !! curTreeNameIt (cursor r) with
  | Some name => Ok name
  | None => Undefined
  end.

(** [Reader::GetTree].  [srcFile->Get(name)] gives the object the file holds
    under [name]; when that is the tree [curTree] already owns,
    [curTree.reset] deletes it and the next line uses the deleted tree ([Rewind]
    resets [curTree] first for this reason).  The branch addresses it sets are
    the members of [buffers]; for a data sample the simulation-only ones stay
    unbound, which [GetEntry] below accounts for. *)
Definition GetTree (name : string) (r : Reader) : outcome Reader :=
  match objects (srcFile r) !! name with
  | Some (ObjTree t) =>
      if decide (curTreeKey r = Some name) then Undefined
      else
        let c := {| curTreeNameIt := curTreeNameIt (cursor r); curTree := Some t;
                    nEntries := Z.of_nat (length t); curEntry := 0 |} in
        Ok (set_weight dbl_one (with_curTreeKey (Some name) (with_cursor c r)))
  | _ => Throw (runtime_error (msg_no_tree name (GetTitle (srcFile r))))
  end.

(** What [TTree::GetEntry] leaves in the buffers: every bound branch takes the
    entry's value. *)
Definition fill (mc : bool) (e old : Buffers) : Buffers :=
  if mc then e
  else {| lepBuf := lepBuf e; jetBuf := jetBuf e; metPt := metPt e; metPhi := metPhi e;
          nPV := nPV e;
          jetJECUpBuf := jetJECUpBuf old; jetJECDownBuf := jetJECDownBuf old;
          metJECUpPt := metJECUpPt old; metJECUpPhi := metJECUpPhi old;
          metJECDownPt := metJECDownPt old; metJECDownPhi := metJECDownPhi old;
          rawWeight := rawWeight old |}.

(** [curTree->GetEntry(i)], its return value dropped as the caller does.
    ROOT reads nothing when the tree has no entry [i]. *)
Definition GetEntry (i : Z) (r : Reader) : outcome Reader :=
  match curTree (cursor r) with
  | None => Undefined
  | Some t =>
      match (if decide (0 ≤ i) then t !! Z.to_nat i else None) with
      | Some e => Ok (with_buffers (fill (isMC r) e (buffers r)) r)
      | None => Ok r
      end
  end.

(** The loops [for (int i = 0; i < size; ++i) v.emplace_back(...)].  A buffer
    holds what the entry stored; a slot past that, where the program would
    find what an earlier entry left, reads as the default here.  A tree's
    count branch gives the length of its array branches, so no such slot is
    read from a well-formed entry. *)
Definition read_leptons (b : LeptonBuffers) : list Lepton :=
  (λ i, mkLepton (lepFlavour b !!! i) (lepPt b !!! i) (lepEta b !!! i)
                 (lepPhi b !!! i) (lepIso b !!! i)) <$> seq 0 (Z.to_nat (lepSize b)).

Definition read_jets (b : JetBuffers) : list Jet :=
  (λ i, mkJet (jetPt b !!! i) (jetEta b !!! i) (jetPhi b !!! i)
              (jetBTag b !!! i) (jetFlavour b !!! i)) <$> seq 0 (Z.to_nat (jetSize b)).

(** Lines 54-93 of [ReadNextEvent]: the collections rebuilt from the buffers
    and sorted. *)
Definition decode (mc : bool) (b : Buffers) (old : Event) : Event :=
  {| leptons := sort_reversed Lepton_lt (read_leptons (lepBuf b));
     jets := sort_reversed Jet_lt (read_jets (jetBuf b));
     jetsJECUp :=
       if mc then sort_reversed Jet_lt (read_jets (jetJECUpBuf b)) else jetsJECUp old;
     jetsJECDown :=
       if mc then sort_reversed Jet_lt (read_jets (jetJECDownBuf b)) else jetsJECDown old;
     met := mkMET (metPt b) (metPhi b);
     metJECUp := if mc then mkMET (metJECUpPt b) (metJECUpPhi b) else metJECUp old;
     metJECDown := if mc then mkMET (metJECDownPt b) (metJECDownPhi b) else metJECDown old |}.

(** [++curEntry] *)
Definition incr_curEntry (r : Reader) : Reader :=
  with_cursor {| curTreeNameIt := curTreeNameIt (cursor r); curTree := curTree (cursor r);
                 nEntries := nEntries (cursor r); curEntry := curEntry (cursor r) + 1 |} r.

(** [curTreeNameIt = it] *)
Definition set_curTreeNameIt (it : nat) (r : Reader) : Reader :=
  with_cursor {| curTreeNameIt := it; curTree := curTree (cursor r);
                 nEntries := nEntries (cursor r); curEntry := curEntry (cursor r) |} r.

(** [curTree.reset()] *)
Definition reset_curTree (r : Reader) : Reader :=
  with_curTreeKey None
    (with_cursor {| curTreeNameIt := curTreeNameIt (cursor r); curTree := None;
                    nEntries := nEntries (cursor r); curEntry := curEntry (cursor r) |} r).

(** [ReadNextEvent] from [++curEntry] on: the cursor moved, the collections
    rebuilt and sorted, the cached weight marked stale. *)
Definition decode_event (r : Reader) : Reader :=
  let r2 := incr_curEntry r in
  let r3 := with_event (decode (isMC r2) (buffers r2) (event r2)) r2 in
  set_weightCached false r3.

(** [ReadNextEvent] from line 50 on. *)
Definition load_and_decode (r : Reader) : outcome (bool * Reader) :=
  r1 ← GetEntry (curEntry (cursor r)) r;
  Ok (true, decode_event r1).

(** [Reader::ReadNextEvent].  [++curTreeNameIt] has a meaning only below
    [end()]. *)
Definition ReadNextEvent (r : Reader) : outcome (bool * Reader) :=
  if decide (curEntry (cursor r) = nEntries (cursor r)) then
    if decide (curTreeNameIt (cursor r) < length (treeNames r))%nat then
      let r1 := set_curTreeNameIt (S (curTreeNameIt (cursor r))) r in
      if decide (curTreeNameIt (cursor r1) = length (treeNames r1)) then Ok (false, r1)
      else
        name ← deref_curTreeNameIt r1;
        r2 ← GetTree name r1;
        load_and_decode r2
    else Undefined
  else load_and_decode r.

(** [Reader::Rewind], declared [noexcept]. *)
Definition Rewind (r : Reader) : outcome Reader :=
  let r1 := reset_curTree (set_curTreeNameIt 0 r) in
  match name ← deref_curTreeNameIt r1; GetTree name r1 with
  | Throw _ => Terminate
  | o => o
  end.

(** [Reader::SetSystematics] *)
Definition SetSystematics (systType : SystType) (systDirection : SystDirection)
    (r : Reader) : Reader :=
  let d := if decide (systType = Nominal) then Up else systDirection in
  set_weightCached false
    (with_selection {| curSystType := systType; curSystDirection := d;
                       applyBTagReweighting := applyBTagReweighting (selection r) |} r).

(** [Reader::GetLeptons] *)
Definition GetLeptons (r : Reader) : list Lepton := leptons (event r).

(** [Reader::GetJets] *)
Definition GetJets (r : Reader) : list Jet :=
  if isMC r && bool_decide (curSystType (selection r) = JEC) then
    if bool_decide (curSystDirection (selection r) = Up) then jetsJECUp (event r)
    else jetsJECDown (event r)
  else jets (event r).

(** [Reader::GetMET] *)
Definition GetMET (r : Reader) : MET :=
  if isMC r && bool_decide (curSystType (selection r) = JEC) then
    if bool_decide (curSystDirection (selection r) = Up) then metJECUp (event r)
    else metJECDown (event r)
  else met (event r).

(** The body of the loop over [jets] in [GetWeight]. *)
Definition reweight_jet (r : Reader) (j : Jet) : Reader :=
  let t := curSystType (selection r) in
  let d := curSystDirection (selection r) in
  let perJetBTagWeight := CalculateJetWeight (csvReweighter r) j t d in
  let r1 := with_csvCalls (csvCalls r ++ [(j, t, d)]) r in
  if dbl_neq_zero perJetBTagWeight
  then set_weight (PrimFloat.mul (weight (cache r1)) perJetBTagWeight) r1
  else r1.

(** [Reader::GetWeight] *)
Definition GetWeight (r : Reader) : double * Reader :=
  if negb (isMC r) then (dbl_one, r)
  else if weightCached (cache r) then (weight (cache r), r)
  else
    let r1 := set_weight (rawWeight (buffers r)) r in
    let r2 := if applyBTagReweighting (selection r1)
              then foldl reweight_jet r1 (jets (event r1)) else r1 in
    let r3 := set_weightCached true r2 in
    (weight (cache r3), r3).

(** [Reader::GetNumPV] *)
Definition GetNumPV (r : Reader) : Z := nPV (buffers r).

(** [Reader::SwitchBTagReweighting] *)
Definition SwitchBTagReweighting (on : bool) (r : Reader) : Reader :=
  with_selection {| curSystType := curSystType (selection r);
                    curSystDirection := curSystDirection (selection r);
                    applyBTagReweighting := on |} r.

(** What the members without an initialiser hold when the constructor body
    starts: the read buffers and [weightCached] have none in [Reader.cpp], and
    [MET]'s default constructor is declared elsewhere. *)
Record Uninitialised := {
  u_buffers : Buffers;
  u_weightCached : bool;
  u_met : MET }.

(** [Reader::Reader(srcFile_, treeNames_, isMC_)]; [srcFile_] is [None] for a
    null pointer.  [nEntries], [curEntry] and [weight] get their first values
    from [GetTree]. *)
Definition Reader_new (srcFile_ : option TFile) (treeNames_ : list string) (isMC_ : bool)
    (csv : CSVReweighter) (u : Uninitialised) : outcome Reader :=
  match srcFile_ with
  | None => Throw (runtime_error msg_bad_source)
  | Some f =>
      if IsZombie f then Throw (runtime_error msg_bad_source)
      else
        let r :=
          {| srcFile := f; treeNames := treeNames_; isMC := isMC_; csvReweighter := csv;
             cursor := {| curTreeNameIt := 0; curTree := None; nEntries := 0; curEntry := 0 |};
             curTreeKey := None;
             buffers := u_buffers u;
             event := {| leptons := []; jets := []; jetsJECUp := []; jetsJECDown := [];
                         met := u_met u; metJECUp := u_met u; metJECDown := u_met u |};
             selection := {| curSystType := Nominal; curSystDirection := Up;
                             applyBTagReweighting := true |};
             cache := {| weight := dbl_one; weightCached := u_weightCached u |};
             csvCalls := [] |} in
        name ← deref_curTreeNameIt r;
        GetTree name r
  end.

(** [Reader::Reader(srcFile_, treeName, isMC_)], which delegates. *)
Definition Reader_new_single (srcFile_ : option TFile) (treeName : string) (isMC_ : bool)
    (csv : CSVReweighter) (u : Uninitialised) : outcome Reader :=
  Reader_new srcFile_ [treeName] isMC_ csv u.

(** ** Sequences of calls on one Reader *)

(** The member functions that change the Reader; the accessors are [const]
    and read the state between any two of them. *)
Inductive Call :=
  | CReadNextEvent
  | CRewind
  | CSetSystematics (systType : SystType) (systDirection : SystDirection)
  | CGetWeight
  | CSwitchBTagReweighting (on : bool).

Inductive Reply := RBool (b : bool) | RWeight (w : double) | RVoid.

Definition call (c : Call) (r : Reader) : outcome (Reply * Reader) :=
  match c with
  | CReadNextEvent => p ← ReadNextEvent r; Ok (RBool p.1, p.2)
  | CRewind => r' ← Rewind r; Ok (RVoid, r')
  | CSetSystematics t d => Ok (RVoid, SetSystematics t d r)
  | CGetWeight => Ok (RWeight (GetWeight r).1, (GetWeight r).2)
  | CSwitchBTagReweighting on => Ok (RVoid, SwitchBTagReweighting on r)
  end.

(** The calls made one after the other, with what each returned. *)
Fixpoint calls (cs : list Call) (r : Reader) : outcome (list Reply * Reader) :=
  match cs with
  | [] => Ok ([], r)
  | c :: cs' =>
      p ← call c r;
      q ← calls cs' p.2;
      Ok (p.1 :: q.1, q.2)
  end.

(** [n] calls of [ReadNextEvent] in a row. *)
Definition read_n (n : nat) (r : Reader) : outcome (list Reply * Reader) :=
  calls (replicate n CReadNextEvent) r.

(** ** A small sample used to run the model *)

Module Sample.

Definition jet_block (pts btags : list double) : JetBuffers :=
  {| jetSize := Z.of_nat (length pts); jetPt := pts;
     jetEta := replicate (length pts) dbl_zero; jetPhi := replicate (length pts) dbl_zero;
     jetBTag := btags; jetFlavour := replicate (length pts) 5 |}.

Definition lepton_block (pts : list double) : LeptonBuffers :=
  {| lepSize := Z.of_nat (length pts); lepPt := pts;
     lepEta := replicate (length pts) dbl_zero; lepPhi := replicate (length pts) dbl_zero;
     lepIso := replicate (length pts) dbl_zero; lepFlavour := replicate (length pts) 13 |}.

Definition entry (leps jetpts btags up down : list double) (w : double) : Buffers :=
  {| lepBuf := lepton_block leps; jetBuf := jet_block jetpts btags;
     metPt := 25%float; metPhi := 1%float; nPV := 7;
     jetJECUpBuf := jet_block up btags; jetJECDownBuf := jet_block down btags;
     metJECUpPt := 26%float; metJECUpPhi := 1%float;
     metJECDownPt := 24%float; metJECDownPhi := 1%float;
     rawWeight := w |}.

Definition ev1 : Buffers :=
  entry [10; 30]%float [20; 50; 40]%float [4; 0; 0.5]%float
        [21; 52; 41]%float [19; 48; 39]%float 3%float.
Definition ev2 : Buffers :=
  entry [35]%float [60; 70]%float [1.5; 2]%float [61; 72]%float [59; 68]%float 1%float.
Definition ev3 : Buffers :=
  entry []%float [45]%float [0]%float [46]%float [44]%float 2%float.
Definition ev4 : Buffers :=
  entry [12; 11]%float []%float []%float []%float []%float 0.5%float.
Definition ev5 : Buffers :=
  entry [80]%float [33; 34; 35; 36]%float [1; 1; 4; 1]%float
        [34; 35; 36; 37]%float [32; 33; 34; 35]%float 1%float.

(** Trees of 3, 2, 1 and 0 entries, and an object that is not a tree. *)
Definition file : TFile :=
  {| IsZombie := false; GetTitle := "sample.root";
     objects := <["A" := ObjTree [ev1; ev2; ev3]]>
                (<["B" := ObjTree [ev4; ev5]]>
                (<["S" := ObjTree [ev1]]>
                (<["E" := ObjTree []]>
                (<["H" := ObjOther]> ∅)))) |}.

(** A reweighting model whose factor is the jet's b-tag discriminator,
    doubled under a shifted variation. *)
Definition csv : CSVReweighter :=
  {| CalculateJetWeight := λ j t d,
       match t with
       | Nominal => jet_btag j
       | _ => PrimFloat.mul 2%float (jet_btag j)
       end |}.

Definition junk : Uninitialised :=
  {| u_buffers := entry [1]%float [2]%float [3]%float [4]%float [5]%float 9%float;
     u_weightCached := true;
     u_met := mkMET dbl_zero dbl_zero |}.

(** The Reader a successful construction gives, or the one given. *)
Definition get (d : Reader) (o : outcome Reader) : Reader :=
  match o with Ok r => r | _ => d end.

Definition blank : Reader :=
  {| srcFile := file; treeNames := []; isMC := true; csvReweighter := csv;
     cursor := {| curTreeNameIt := 0; curTree := None; nEntries := 0; curEntry := 0 |};
     curTreeKey := None;
     buffers := u_buffers junk;
     event := {| leptons := []; jets := []; jetsJECUp := []; jetsJECDown := [];
                 met := u_met junk; metJECUp := u_met junk; metJECDown := u_met junk |};
     selection := {| curSystType := Nominal; curSystDirection := Up;
                     applyBTagReweighting := true |};
     cache := {| weight := dbl_one; weightCached := false |};
     csvCalls := [] |}.

(** Simulation Readers over trees of 3 and 2 entries, of 1 entry, and of 1
    and 0 entries. *)
Definition reader_AB : Reader := get blank (Reader_new (Some file) ["A"; "B"] true csv junk).
Definition reader_S : Reader := get blank (Reader_new_single (Some file) "S" true csv junk).
Definition reader_SE : Reader := get blank (Reader_new (Some file) ["S"; "E"] true csv junk).

(** A simulation Reader over the tree of 1 entry and a name the file does not
    hold. *)
Definition reader_SZ : Reader := get blank (Reader_new (Some file) ["S"; "Z"] true csv junk).

(** A data Reader over the tree of 3 entries. *)
Definition reader_data : Reader :=
  get blank (Reader_new_single (Some file) "A" false csv junk).

(** A simulation Reader whose tree list names the tree of 1 entry twice in a
    row. *)
Definition reader_SS : Reader := get blank (Reader_new (Some file) ["S"; "S"] true csv junk).

(** An entry one of whose nominal jets has a NaN for transverse momentum, in
    a file of its own, and a simulation Reader over it. *)
Definition ev_nan : Buffers :=
  entry [10]%float [20%float; PrimFloat.nan; 50%float; 10%float] [1; 1; 1; 1]%float
        [21; 22; 51; 11]%float [19; 18; 49; 9]%float 1%float.

Definition file_nan : TFile :=
  {| IsZombie := false; GetTitle := "nan.root";
     objects := <["N" := ObjTree [ev_nan]]> ∅ |}.

Definition reader_nan : Reader :=
  get blank (Reader_new_single (Some file_nan) "N" true csv junk).

(** The state after the given calls, or the one given when they do not all
    return. *)
Definition after (cs : list Call) (r : Reader) : Reader :=
  match calls cs r with Ok p => p.2 | _ => r end.

End Sample.

(** ** Vocabulary of the properties *)

(** A collection is in non-increasing order of transverse momentum: of two
    adjacent elements, the earlier has the greater or equal one. *)
Definition pt_ordered {A} (pt : A → double) (v : list A) : Prop :=
  ∀ i a b, v !! i = Some a → v !! S i = Some b → dbl_ge (pt a) (pt b).

Definition pt_not_nan {A} (pt : A → double) (v : list A) : Prop :=
  Forall (λ a, not_nan (pt a)) v.

(** No transverse momentum of the decoded event is a NaN.  With a NaN among
    them [operator<] is no strict weak ordering, which [std::sort] requires,
    and the sort leaves elements out of order. *)
Definition event_pt_not_nan (r : Reader) : Prop :=
  pt_not_nan lep_pt (leptons (event r)) ∧ pt_not_nan jet_pt (jets (event r)) ∧
  (isMC r = true →
   pt_not_nan jet_pt (jetsJECUp (event r)) ∧ pt_not_nan jet_pt (jetsJECDown (event r))).


(** The factor the reweighting model gives each nominal jet under the
    current selection, in the order of the collection. *)
Definition per_jet_factors (r : Reader) : list double :=
  (λ j, CalculateJetWeight (csvReweighter r) j
          (curSystType (selection r)) (curSystDirection (selection r))) <$> jets (event r).

(** The calls of the reweighting model one recomputation makes. *)
Definition per_jet_calls (r : Reader) : list (Jet * SystType * SystDirection) :=
  (λ j, (j, curSystType (selection r), curSystDirection (selection r))) <$> jets (event r).

(** The same Reader with another nominal jet collection. *)
Definition with_jets (js : list Jet) (r : Reader) : Reader :=
  with_event {| leptons := leptons (event r); jets := js;
                jetsJECUp := jetsJECUp (event r); jetsJECDown := jetsJECDown (event r);
                met := met (event r); metJECUp := metJECUp (event r);
                metJECDown := metJECDown (event r) |} r.

(** What a sequence of calls returned, when all of them returned. *)
Definition replies (o : outcome (list Reply * Reader)) : option (list Reply) :=
  match o with Ok p => Some p.1 | _ => None end.

(** A call that marks the cached weight stale: [SetSystematics], whatever its
    arguments, and a [ReadNextEvent] that returned [true]. *)
Definition invalidates (c : Call) (o : Reply) : bool :=
  match c, o with
  | CSetSystematics _ _, _ => true
  | CReadNextEvent, RBool true => true
  | _, _ => false
  end.

(** One of the calls made, given what each returned, marked it stale. *)
Definition invalidated (cs : list Call) (os : list Reply) : bool :=
  existsb (λ p, invalidates p.1 p.2) (zip cs os).

Definition is_CGetWeight (c : Call) : bool :=
  match c with CGetWeight => true | _ => false end.

Definition is_CRewind (c : Call) : bool :=
  match c with CRewind => true | _ => false end.

(** None of the calls is [GetWeight]; none is [Rewind]. *)
Definition no_GetWeight (cs : list Call) : bool := forallb (λ c, negb (is_CGetWeight c)) cs.
Definition no_Rewind (cs : list Call) : bool := forallb (λ c, negb (is_CRewind c)) cs.

(** The fields that only the constructor sets. *)
Definition same_setup (r r' : Reader) : Prop :=
  srcFile r' = srcFile r ∧ treeNames r' = treeNames r ∧ isMC r' = isMC r ∧
  csvReweighter r' = csvReweighter r.

(** The stream is exhausted: the tree-name iterator is at [end()], where the
    [ReadNextEvent] that returns [false] leaves it. *)
Definition exhausted (r : Reader) : Prop :=
  curTreeNameIt (cursor r) = length (treeNames r).

(** The trees at positions 1 to [i] of the tree names exist, have entries,
    and are not the tree named just before them. *)
Definition later_trees_nonempty (r : Reader) (i : nat) : Prop :=
  ∀ j name, (1 ≤ j ≤ i)%nat → treeNames r !! j = Some name →
    (∃ t, objects (srcFile r) !! name = Some (ObjTree t) ∧ t ≠ []) ∧
    treeNames r !! (j - 1)%nat ≠ Some name.

(** The cursor is inside the current tree, which is the one the iterator
    names, and every tree entered after the first had entries; or the cursor
    has run past the entry count (of an empty tree that was entered). *)
Definition cursor_inv (r : Reader) : Prop :=
  (curEntry (cursor r) ≤ nEntries (cursor r) ∧
   later_trees_nonempty r (curTreeNameIt (cursor r)) ∧
   ((curTreeNameIt (cursor r) < length (treeNames r))%nat →
    curTreeKey r = treeNames r !! curTreeNameIt (cursor r))) ∨
  (nEntries (cursor r) < curEntry (cursor r) ∧
   (curTreeNameIt (cursor r) < length (treeNames r))%nat).

(** Two Readers show the same decoded event: the same leptons, nominal jets,
    MET and vertex count, and for simulation the same shifted jets and METs
    and the same raw weight. *)
Definition same_decoded_event (r1 r2 : Reader) : Prop :=
  GetLeptons r1 = GetLeptons r2 ∧ jets (event r1) = jets (event r2) ∧
  met (event r1) = met (event r2) ∧ GetNumPV r1 = GetNumPV r2 ∧
  (isMC r1 = true →
   jetsJECUp (event r1) = jetsJECUp (event r2) ∧
   jetsJECDown (event r1) = jetsJECDown (event r2) ∧
   metJECUp (event r1) = metJECUp (event r2) ∧
   metJECDown (event r1) = metJECDown (event r2) ∧
   rawWeight (buffers r1) = rawWeight (buffers r2)).

(** The entry the first [ReadNextEvent] loads when the first tree is [t]: its
    first entry, or, when it has none, the first entry of the second tree. *)
Definition first_entry (r : Reader) (t : TTree) : option Buffers :=
  match t with
  | e :: _ => Some e
  | [] =>
      match treeNames r !! 1%nat with
      | Some name =>
          match objects (srcFile r) !! name with
          | Some (ObjTree (e :: _)) => Some e
          | _ => None
          end
      | None => None
      end
  end.

(** The cursor as [GetTree] leaves it on the first tree. *)
Definition at_start (t : TTree) : Cursor :=
  {| curTreeNameIt := 0; curTree := Some t; nEntries := Z.of_nat (length t); curEntry := 0 |}.

(** The Reader is on tree [i] of [trees], the trees its names resolve to,
    with [c] of that tree's entries read; [curTree] points to the object
    held under name [i]. *)
Definition at_pos (f : TFile) (names : list string) (trees : list TTree) (r : Reader)
    (i c : nat) : Prop :=
  srcFile r = f ∧ treeNames r = names ∧ curTreeKey r = names !! i ∧
  ∃ t, trees !! i = Some t ∧ (c ≤ length t)%nat ∧
    cursor r = {| curTreeNameIt := i; curTree := Some t;
                  nEntries := Z.of_nat (length t); curEntry := Z.of_nat c |}.

(** No tree name is followed by the same name: moving to the next tree never
    asks the file for the tree that is bound. *)
Definition adjacent_distinct (names : list string) : Prop :=
  ∀ i name, names !! i = Some name → names !! S i ≠ Some name.

(** No transverse momentum that decoding reads from entry [e] is a NaN. *)
Definition entry_pt_not_nan (mc : bool) (e : Buffers) : Prop :=
  pt_not_nan lep_pt (read_leptons (lepBuf e)) ∧
  pt_not_nan jet_pt (read_jets (jetBuf e)) ∧
  (mc = true →
   pt_not_nan jet_pt (read_jets (jetJECUpBuf e)) ∧
   pt_not_nan jet_pt (read_jets (jetJECDownBuf e))).

(** The entries still to be read from there, in order. *)
Definition entries_left (trees : list TTree) (i c : nat) : list Buffers :=
  drop c (default [] (trees !! i)) ++ concat (drop (S i) trees).

(** The buffers hold entry [e] in every bound branch. *)
Definition holds_entry (mc : bool) (e b : Buffers) : Prop := fill mc e b = b.

(** [SetSystematics] or [SwitchBTagReweighting]: the calls that write the
    selection. *)
Definition is_selection_call (c : Call) : bool :=
  match c with
  | CSetSystematics _ _ | CSwitchBTagReweighting _ => true
  | _ => false
  end.

Definition no_selection_call (cs : list Call) : bool :=
  forallb (λ c, negb (is_selection_call c)) cs.

(** The Reader is at a position of the stream of [trees], or past its last
    entry with the iterator at [end()]. *)
Definition stream_inv (f : TFile) (names : list string) (trees : list TTree)
    (r : Reader) : Prop :=
  (∃ i c, at_pos f names trees r i c) ∨
  (srcFile r = f ∧ treeNames r = names ∧ exhausted r ∧
   ∃ t, curTree (cursor r) = Some t ∧ nEntries (cursor r) = Z.of_nat (length t) ∧
        curEntry (cursor r) = Z.of_nat (length t)).
(** * Properties *)

(** ** Order of doubles *)

Lemma SFcompare_antisym (a b : spec_float) :
  SFcompare b a = CompOpp <$> SFcompare a b.
Proof.
  destruct a as [[]|[]| |[] m1 e1], b as [[]|[]| |[] m2 e2]; simpl; try reflexivity.
  all: rewrite (Z.compare_antisym e1 e2); destruct (e1 ?= e2)%Z; simpl; try reflexivity.
  all: change (PosDef.Pos.compare_cont Eq m2 m1) with (Pos.compare m2 m1);
    change (PosDef.Pos.compare_cont Eq m1 m2) with (Pos.compare m1 m2);
    rewrite (Pos.compare_antisym m1 m2); reflexivity.
Qed.

Lemma SFcompare_not_nan (a b : spec_float) :
  a ≠ S754_nan → b ≠ S754_nan → is_Some (SFcompare a b).
Proof.
  destruct a as [[]|[]| |[] m1 e1], b as [[]|[]| |[] m2 e2]; simpl; try done; eauto.
Qed.

Lemma not_nan_Prim2SF (x : double) : not_nan x → Prim2SF x ≠ S754_nan.
Proof.
  unfold not_nan, PrimFloat.is_nan. rewrite FloatAxioms.eqb_spec. unfold SFeqb.
  intros H E. rewrite E in H. done.
Qed.

(** [a < b] gives [b >= a], for all doubles. *)
Lemma dbl_lt_ge (a b : double) : PrimFloat.ltb a b = true → dbl_ge b a.
Proof.
  unfold dbl_ge. rewrite FloatAxioms.ltb_spec, FloatAxioms.leb_spec.
  unfold SFltb, SFleb. destruct (SFcompare _ _) as [[]|]; done.
Qed.

(** Away from NaN the order is total: not [a < b] gives [a >= b]. *)
Lemma dbl_not_lt_ge (a b : double) :
  not_nan a → not_nan b → PrimFloat.ltb a b = false → dbl_ge a b.
Proof.
  intros Ha%not_nan_Prim2SF Hb%not_nan_Prim2SF. unfold dbl_ge.
  rewrite FloatAxioms.ltb_spec, FloatAxioms.leb_spec. unfold SFltb, SFleb.
  rewrite (SFcompare_antisym (Prim2SF a) (Prim2SF b)).
  destruct (SFcompare_not_nan _ _ Ha Hb) as [c ->]. destruct c; done.
Qed.

(** ** [std::sort] returns a sorted rearrangement *)

Section sort_facts.
Context {A : Type} (lt : A → A → bool) (le : relation A) (P : A → Prop).
Hypothesis lt_le : ∀ x y, lt x y = true → le x y.
Hypothesis not_lt_le : ∀ x y, P x → P y → lt y x = false → le x y.

Lemma sort_insert_Permutation x l : sort_insert lt x l ≡ₚ x :: l.
Proof.
  induction l as [|y l IH]; simpl; [done|].
  destruct (lt y x); [|done]. rewrite IH. apply Permutation_swap.
Qed.

Lemma std_sort_Permutation l : std_sort lt l ≡ₚ l.
Proof.
  induction l as [|x l IH]; simpl; [done|].
  rewrite sort_insert_Permutation. by f_equiv.
Qed.

Lemma sort_reversed_Permutation l : sort_reversed lt l ≡ₚ l.
Proof.
  unfold sort_reversed. by rewrite reverse_Permutation, std_sort_Permutation,
    reverse_Permutation.
Qed.

Lemma HdRel_sort_insert a x l :
  le a x → HdRel le a l → HdRel le a (sort_insert lt x l).
Proof.
  intros Hax Hl. destruct l as [|y l]; simpl; [by constructor|].
  destruct (lt y x); constructor; [by inversion Hl|done].
Qed.

Lemma Sorted_sort_insert x l :
  P x → Forall P l → Sorted le l → Sorted le (sort_insert lt x l).
Proof.
  intros Hx. induction l as [|y l IH]; simpl; intros HP Hs.
  - repeat constructor.
  - apply Forall_cons in HP as [Hy HP]. apply Sorted_inv in Hs as [Hs Hhd].
    destruct (lt y x) eqn:E.
    + constructor; [by apply IH|]. apply HdRel_sort_insert; [by apply lt_le|done].
    + constructor; [by constructor|]. constructor. by apply not_lt_le.
Qed.

Lemma Sorted_std_sort l : Forall P l → Sorted le (std_sort lt l).
Proof.
  induction l as [|x l IH]; simpl; intros HP; [constructor|].
  apply Forall_cons in HP as [Hx HP]. apply Sorted_sort_insert; [done| |by apply IH].
  by rewrite std_sort_Permutation.
Qed.

Lemma Sorted_sort_reversed l : Forall P l → Sorted (flip le) (sort_reversed lt l).
Proof.
  intros HP. apply Sorted_reverse, Sorted_std_sort. by apply Forall_reverse.
Qed.
End sort_facts.

Lemma Sorted_lookup_adjacent {A} (R : relation A) (v : list A) i a b :
  Sorted R v → v !! i = Some a → v !! S i = Some b → R a b.
Proof.
  intros Hs. revert i. induction Hs as [|x l Hs IH Hhd]; intros i Ha Hb; [done|].
  destruct i as [|i]; simpl in *.
  - destruct l as [|y l]; simplify_eq/=. by inversion Hhd.
  - by eapply IH.
Qed.

Lemma sort_reversed_pt_ordered {A} (pt : A → double) (v : list A) :
  pt_not_nan pt (sort_reversed (λ a b, PrimFloat.ltb (pt a) (pt b)) v) →
  pt_ordered pt (sort_reversed (λ a b, PrimFloat.ltb (pt a) (pt b)) v).
Proof.
  intros HP i a b. unfold pt_not_nan in HP.
  rewrite sort_reversed_Permutation in HP.
  apply (Sorted_lookup_adjacent (flip (λ x y, dbl_ge (pt y) (pt x)))).
  eapply (Sorted_sort_reversed _ _ (λ a, not_nan (pt a))); [| |done].
  - intros x y. apply dbl_lt_ge.
  - intros x y Hx Hy. by apply dbl_not_lt_ge.
Qed.

(** ** How the operations return *)

Lemma bind_Ok {A B} (m : outcome A) (f : A → outcome B) (b : B) :
  m ≫= f = Ok b → ∃ a, m = Ok a ∧ f a = Ok b.
Proof. destruct m; simpl; [eauto|done..]. Qed.

Ltac inv_Ok :=
  repeat match goal with
  | H : _ ≫= _ = Ok _ |- _ => apply bind_Ok in H as (? & ? & H)
  | H : Ok _ = Ok _ |- _ => injection H as H
  | H : (_, _) = (_, _) |- _ => injection H as ? H
  end.

Lemma bind_Ok_l {A B} (a : A) (f : A → outcome B) : Ok a ≫= f = f a.
Proof. done. Qed.

Lemma read_n_S n r :
  read_n (S n) r =
  p ← ReadNextEvent r; q ← read_n n p.2; Ok (RBool p.1 :: q.1, q.2).
Proof. unfold read_n. simpl. by destruct (ReadNextEvent r) as [[b r1]| | |]. Qed.

Lemma GetTree_Ok name r r' :
  GetTree name r = Ok r' →
  ∃ t, objects (srcFile r) !! name = Some (ObjTree t) ∧ curTreeKey r ≠ Some name ∧
       r' = set_weight dbl_one
              (with_curTreeKey (Some name)
                 (with_cursor {| curTreeNameIt := curTreeNameIt (cursor r); curTree := Some t;
                                 nEntries := Z.of_nat (length t); curEntry := 0 |} r)).
Proof.
  unfold GetTree. destruct (objects (srcFile r) !! name) as [[t|]|]; [|done..].
  destruct (decide (curTreeKey r = Some name)); [done|].
  intros [= <-]. eauto.
Qed.

Lemma deref_set_curTreeNameIt j r name :
  treeNames r !! j = Some name → deref_curTreeNameIt (set_curTreeNameIt j r) = Ok name.
Proof. intros H. unfold deref_curTreeNameIt. cbn. by rewrite H. Qed.

Lemma GetTree_found name r t :
  objects (srcFile r) !! name = Some (ObjTree t) →
  curTreeKey r ≠ Some name →
  GetTree name r =
  Ok (set_weight dbl_one
        (with_curTreeKey (Some name)
           (with_cursor {| curTreeNameIt := curTreeNameIt (cursor r); curTree := Some t;
                           nEntries := Z.of_nat (length t); curEntry := 0 |} r))).
Proof. intros H Hk. unfold GetTree. rewrite H. by rewrite decide_False. Qed.

Lemma load_and_decode_Ok r b r' :
  load_and_decode r = Ok (b, r') →
  b = true ∧ ∃ r1, GetEntry (curEntry (cursor r)) r = Ok r1 ∧ r' = decode_event r1.
Proof. unfold load_and_decode. intros H. inv_Ok. subst. eauto. Qed.

Lemma load_and_decode_found r t e :
  curTree (cursor r) = Some t → 0 ≤ curEntry (cursor r) →
  t !! Z.to_nat (curEntry (cursor r)) = Some e →
  load_and_decode r = Ok (true, decode_event (with_buffers (fill (isMC r) e (buffers r)) r)).
Proof.
  intros Ht Hi He. unfold load_and_decode, GetEntry. rewrite Ht.
  rewrite decide_True by done. by rewrite He.
Qed.

(** The two ways [ReadNextEvent] returns: at the end of the last tree with
    [false] and only the iterator moved, or with [true] after decoding an
    entry of the current tree or of the next one. *)
Lemma ReadNextEvent_Ok r b r' :
  ReadNextEvent r = Ok (b, r') →
  (b = false ∧ curEntry (cursor r) = nEntries (cursor r) ∧
   S (curTreeNameIt (cursor r)) = length (treeNames r) ∧
   r' = set_curTreeNameIt (S (curTreeNameIt (cursor r))) r) ∨
  (b = true ∧ ∃ r0 r1,
     GetEntry (curEntry (cursor r0)) r0 = Ok r1 ∧ r' = decode_event r1 ∧
     ((curEntry (cursor r) ≠ nEntries (cursor r) ∧ r0 = r) ∨
      (curEntry (cursor r) = nEntries (cursor r) ∧
       (S (curTreeNameIt (cursor r)) < length (treeNames r))%nat ∧
       ∃ name, treeNames r !! S (curTreeNameIt (cursor r)) = Some name ∧
               GetTree name (set_curTreeNameIt (S (curTreeNameIt (cursor r))) r) = Ok r0))).
Proof.
  unfold ReadNextEvent. intros H.
  destruct (decide (curEntry (cursor r) = nEntries (cursor r))) as [He|He].
  - destruct (decide (curTreeNameIt (cursor r) < length (treeNames r))%nat) as [Hlt|]; [|done].
    simpl in H. destruct (decide (S (curTreeNameIt (cursor r)) = length (treeNames r))) as [Hend|Hend].
    + injection H as <- <-. by left.
    + right. apply bind_Ok in H as (name & Hname & H). apply bind_Ok in H as (r0 & Hr0 & H).
      apply load_and_decode_Ok in H as (-> & r1 & Hr1 & ->). split; [done|].
      exists r0, r1. split_and!; [done..|]. right. split_and!; [done|lia|].
      exists name. split; [|done]. unfold deref_curTreeNameIt in Hname. simpl in Hname.
      by destruct (treeNames r !! S (curTreeNameIt (cursor r))); simplify_eq.
  - right. apply load_and_decode_Ok in H as (-> & r1 & Hr1 & ->). split; [done|].
    exists r, r1. split_and!; [done..|]. by left.
Qed.

Lemma ReadNextEvent_true_decoded r r' :
  ReadNextEvent r = Ok (true, r') → ∃ r1, r' = decode_event r1.
Proof.
  intros [(? & _)|(_ & r0 & r1 & _ & -> & _)]%ReadNextEvent_Ok; [done|eauto].
Qed.

(** ** C2: the collections are ordered after every successful read *)

(** C2, amended.  After a call of [ReadNextEvent] that returned [true], and
    provided no transverse momentum of the decoded event is a NaN, the
    leptons, the nominal jets and, for a simulation sample, the jets of both
    shifted variants are in non-increasing order of transverse momentum: each
    element's transverse momentum is greater than or equal to the next one's;
    so is what [GetJets] returns under any selection. *)
Theorem C2_collections_pt_ordered (r r' : Reader) :
  ReadNextEvent r = Ok (true, r') →
  event_pt_not_nan r' →
  pt_ordered lep_pt (GetLeptons r') ∧
  pt_ordered jet_pt (jets (event r')) ∧
  (isMC r' = true →
   pt_ordered jet_pt (jetsJECUp (event r')) ∧ pt_ordered jet_pt (jetsJECDown (event r'))) ∧
  (∀ t d, pt_ordered jet_pt (GetJets (SetSystematics t d r'))).
Proof.
  intros [r1 ->]%ReadNextEvent_true_decoded (Hl & Hj & Hmc).
  assert (pt_ordered jet_pt (jets (event (decode_event r1)))) as Hjets
    by (by apply (sort_reversed_pt_ordered jet_pt)).
  assert (isMC (decode_event r1) = true →
          pt_ordered jet_pt (jetsJECUp (event (decode_event r1))) ∧
          pt_ordered jet_pt (jetsJECDown (event (decode_event r1)))) as Hvar.
  { intros Hb. destruct (Hmc Hb) as [Hu Hd]. cbn in Hb, Hu, Hd |- *.
    rewrite Hb in Hu, Hd |- *. split; by apply (sort_reversed_pt_ordered jet_pt). }
  split_and!; [|done..|].
  - by apply (sort_reversed_pt_ordered lep_pt).
  - intros t d. unfold GetJets.
    change (isMC (SetSystematics t d (decode_event r1))) with (isMC (decode_event r1)).
    change (event (SetSystematics t d (decode_event r1))) with (event (decode_event r1)).
    destruct (isMC (decode_event r1)) eqn:Hb; [|done].
    destruct (Hvar eq_refl) as [Hu Hd].
    destruct (bool_decide _); [|done]. cbn [andb]. by destruct (bool_decide _).
Qed.

Ltac pt_not_nan_by_evaluation :=
  unfold event_pt_not_nan, pt_not_nan; vm_compute;
  repeat first [split | intros _ | constructor].

Ltac entry_pt_not_nan_by_evaluation :=
  unfold entry_pt_not_nan, pt_not_nan; vm_compute;
  repeat first [split | intros _ | constructor].

Lemma C2_collections_pt_ordered_witness :
  pt_ordered lep_pt (GetLeptons (Sample.after [CReadNextEvent] Sample.reader_AB)) ∧
  pt_ordered jet_pt (jets (event (Sample.after [CReadNextEvent] Sample.reader_AB))) ∧
  (isMC (Sample.after [CReadNextEvent] Sample.reader_AB) = true →
   pt_ordered jet_pt (jetsJECUp (event (Sample.after [CReadNextEvent] Sample.reader_AB))) ∧
   pt_ordered jet_pt (jetsJECDown (event (Sample.after [CReadNextEvent] Sample.reader_AB)))) ∧
  (∀ t d, pt_ordered jet_pt
            (GetJets (SetSystematics t d (Sample.after [CReadNextEvent] Sample.reader_AB)))).
Proof.
  apply (C2_collections_pt_ordered Sample.reader_AB).
  - vm_compute. reflexivity.
  - pt_not_nan_by_evaluation.
Defined.

(** C2 as stated fails on an entry with a NaN among the transverse momenta.
    The entry's nominal jets are stored as 20, NaN, 50, 10; [ReadNextEvent]
    returns [true] and leaves them in that order, so the jet of 50 comes
    after the jet of 20, and what [GetJets] returns is not ordered. *)
Lemma C2_counterexample :
  replies (calls [CReadNextEvent] Sample.reader_nan) = Some [RBool true] ∧
  jet_pt <$> GetJets (Sample.after [CReadNextEvent] Sample.reader_nan)
    = [20%float; PrimFloat.nan; 50%float; 10%float] ∧
  ¬ pt_ordered jet_pt (jets (event (Sample.after [CReadNextEvent] Sample.reader_nan))).
Proof.
  split_and!; [vm_compute; reflexivity..|].
  intros H. specialize (H 1%nat). vm_compute in H.
  by specialize (H _ _ eq_refl eq_refl).
Qed.

(** ** C3: which variant the accessors return *)

Lemma SetSystematics_selection t d r :
  curSystType (selection (SetSystematics t d r)) = t ∧
  curSystDirection (selection (SetSystematics t d r)) = (if decide (t = Nominal) then Up else d) ∧
  event (SetSystematics t d r) = event r ∧ isMC (SetSystematics t d r) = isMC r.
Proof. done. Qed.

(** C3. For a simulation sample, with the selection (JEC, Up) [GetJets] and
    [GetMET] return the shift-up jets and MET, with (JEC, Down) the shift-down
    ones; with any type other than JEC (the nominal selection included), and
    for every sample that is not simulation, they return the nominal jets and
    MET. *)
Theorem C3_variant_selection (r : Reader) :
  (isMC r = true → curSystType (selection r) = JEC → curSystDirection (selection r) = Up →
   GetJets r = jetsJECUp (event r) ∧ GetMET r = metJECUp (event r)) ∧
  (isMC r = true → curSystType (selection r) = JEC → curSystDirection (selection r) = Down →
   GetJets r = jetsJECDown (event r) ∧ GetMET r = metJECDown (event r)) ∧
  (curSystType (selection r) ≠ JEC →
   GetJets r = jets (event r) ∧ GetMET r = met (event r)) ∧
  (isMC r = false → GetJets r = jets (event r) ∧ GetMET r = met (event r)).
Proof.
  unfold GetJets, GetMET. split_and!.
  - by intros -> -> ->.
  - by intros -> -> ->.
  - intros Hne. rewrite bool_decide_eq_false_2 by done. by rewrite andb_false_r.
  - by intros ->.
Qed.

Lemma C3_variant_selection_witness :
  GetJets (SetSystematics JEC Up (Sample.after [CReadNextEvent] Sample.reader_AB))
  = jetsJECUp (event (Sample.after [CReadNextEvent] Sample.reader_AB))
  ∧ jet_pt <$> GetJets (SetSystematics JEC Up (Sample.after [CReadNextEvent] Sample.reader_AB))
    = [52; 41; 21]%float.
Proof.
  split; [|vm_compute; reflexivity].
  apply (proj1 (C3_variant_selection
           (SetSystematics JEC Up (Sample.after [CReadNextEvent] Sample.reader_AB))));
    vm_compute; reflexivity.
Defined.

(** ** The weight *)

Lemma foldl_reweight_jet (js : list Jet) (r : Reader) :
  foldl reweight_jet r js =
  with_csvCalls
    (csvCalls r ++ ((λ j, (j, curSystType (selection r), curSystDirection (selection r))) <$> js))
    (set_weight
       (foldl PrimFloat.mul (weight (cache r))
          (filter (λ w, dbl_neq_zero w = true)
             ((λ j, CalculateJetWeight (csvReweighter r) j
                      (curSystType (selection r)) (curSystDirection (selection r))) <$> js)))
       r).
Proof.
  revert r. induction js as [|j js IH]; intros r; simpl.
  - unfold with_csvCalls, set_weight, with_cache; simpl. by rewrite app_nil_r.
  - rewrite IH. clear IH. unfold reweight_jet.
    rewrite filter_cons.
    destruct (dbl_neq_zero _) eqn:E; simpl;
      unfold with_csvCalls, set_weight, with_cache; simpl; by rewrite <-app_assoc.
Qed.

(** The branch of [GetWeight] that recomputes. *)
Lemma GetWeight_recompute (r : Reader) :
  isMC r = true → weightCached (cache r) = false →
  GetWeight r =
  let w := if applyBTagReweighting (selection r)
           then foldl PrimFloat.mul (rawWeight (buffers r))
                  (filter (λ w, dbl_neq_zero w = true) (per_jet_factors r))
           else rawWeight (buffers r) in
  (w, with_csvCalls
        (csvCalls r ++ if applyBTagReweighting (selection r) then per_jet_calls r else [])
        (with_cache {| weight := w; weightCached := true |} r)).
Proof.
  intros Hmc Hc. unfold GetWeight. rewrite Hmc, Hc. simpl.
  destruct (applyBTagReweighting (selection r)).
  - rewrite foldl_reweight_jet. done.
  - by rewrite app_nil_r.
Qed.

(** The branches of [GetWeight] that do not. *)
Lemma GetWeight_data (r : Reader) : isMC r = false → GetWeight r = (dbl_one, r).
Proof. intros H. unfold GetWeight. by rewrite H. Qed.

Lemma GetWeight_cached (r : Reader) :
  isMC r = true → weightCached (cache r) = true → GetWeight r = (weight (cache r), r).
Proof. intros Hmc Hc. unfold GetWeight. by rewrite Hmc, Hc. Qed.

(** ** C5: a jet with factor zero is skipped *)

(** C5. When [GetWeight] recomputes for a simulation sample with b-tag
    reweighting on, the result is the raw weight multiplied, jet by jet, by
    the model's factor of every nominal jet whose factor is not zero; a jet
    whose factor is zero contributes nothing: the weight is the one computed
    without that jet. *)
Theorem C5_zero_factor_skipped (r : Reader) :
  isMC r = true → weightCached (cache r) = false →
  applyBTagReweighting (selection r) = true →
  (GetWeight r).1 =
    foldl PrimFloat.mul (rawWeight (buffers r))
      (filter (λ w, dbl_neq_zero w = true) (per_jet_factors r)) ∧
  (∀ l1 j l2,
     jets (event r) = l1 ++ j :: l2 →
     dbl_neq_zero (CalculateJetWeight (csvReweighter r) j
                     (curSystType (selection r)) (curSystDirection (selection r))) = false →
     (GetWeight r).1 = (GetWeight (with_jets (l1 ++ l2) r)).1).
Proof.
  intros Hmc Hc Hb. split.
  - rewrite GetWeight_recompute by done. simpl. by rewrite Hb.
  - intros l1 j l2 Hj Hz.
    rewrite !GetWeight_recompute by done. simpl. rewrite Hb.
    unfold per_jet_factors. simpl. rewrite Hj.
    rewrite !fmap_app, fmap_cons, !filter_app, filter_cons.
    rewrite decide_False; [done|]. by rewrite Hz.
Qed.

Lemma C5_zero_factor_skipped_witness :
  per_jet_factors (Sample.after [CReadNextEvent] Sample.reader_AB) = [0; 0.5; 4]%float ∧
  rawWeight (buffers (Sample.after [CReadNextEvent] Sample.reader_AB)) = 3%float ∧
  (GetWeight (Sample.after [CReadNextEvent] Sample.reader_AB)).1 = 6%float.
Proof.
  split; [vm_compute; reflexivity|]. split; [vm_compute; reflexivity|].
  rewrite (proj1 (C5_zero_factor_skipped
                    (Sample.after [CReadNextEvent] Sample.reader_AB)
                    ltac:(vm_compute; reflexivity) ltac:(vm_compute; reflexivity)
                    ltac:(vm_compute; reflexivity))).
  vm_compute. reflexivity.
Defined.

(** ** C9: what [SwitchBTagReweighting] touches *)

(** C9. [SwitchBTagReweighting] changes the reweighting flag and nothing
    else: the cached weight and its validity flag, the decoded collections,
    the selected variation, the cursors and the buffers stay as they were.
    After [GetWeight] has computed and cached a weight, switching (to either
    value) and calling [GetWeight] again returns the same weight and the
    reweighting model is not called. *)
Theorem C9_switch_frame (on : bool) (r : Reader) :
  applyBTagReweighting (selection (SwitchBTagReweighting on r)) = on ∧
  cache (SwitchBTagReweighting on r) = cache r ∧
  event (SwitchBTagReweighting on r) = event r ∧
  curSystType (selection (SwitchBTagReweighting on r)) = curSystType (selection r) ∧
  curSystDirection (selection (SwitchBTagReweighting on r)) = curSystDirection (selection r) ∧
  cursor (SwitchBTagReweighting on r) = cursor r ∧
  buffers (SwitchBTagReweighting on r) = buffers r ∧
  csvCalls (SwitchBTagReweighting on r) = csvCalls r ∧
  GetWeight (SwitchBTagReweighting on (GetWeight r).2)
  = ((GetWeight r).1, SwitchBTagReweighting on (GetWeight r).2).
Proof.
  split_and!; try done.
  destruct (isMC r) eqn:Hmc.
  - destruct (weightCached (cache r)) eqn:Hc.
    + rewrite (GetWeight_cached r) by done. cbn [fst snd]. by rewrite GetWeight_cached.
    + rewrite (GetWeight_recompute r) by done. cbn [fst snd]. by rewrite GetWeight_cached.
  - rewrite (GetWeight_data r) by done. cbn [fst snd]. by rewrite GetWeight_data.
Qed.

(** ** C10: [Rewind] and the cached weight *)

Lemma Rewind_Ok r r' :
  Rewind r = Ok r' →
  ∃ name t, treeNames r !! 0%nat = Some name ∧
    objects (srcFile r) !! name = Some (ObjTree t) ∧
    r' = set_weight dbl_one
           (with_curTreeKey (Some name)
              (with_cursor {| curTreeNameIt := 0; curTree := Some t;
                              nEntries := Z.of_nat (length t); curEntry := 0 |} r)).
Proof.
  unfold Rewind, deref_curTreeNameIt.
  change (treeNames (reset_curTree (set_curTreeNameIt 0 r))
            !! curTreeNameIt (cursor (reset_curTree (set_curTreeNameIt 0 r))))
    with (treeNames r !! 0%nat).
  destruct (treeNames r !! 0%nat) as [name|] eqn:Hn; [|done].
  change (Ok name ≫= (λ n, GetTree n (reset_curTree (set_curTreeNameIt 0 r))))
    with (GetTree name (reset_curTree (set_curTreeNameIt 0 r))).
  destruct (GetTree name (reset_curTree (set_curTreeNameIt 0 r))) as [r1| | |] eqn:Hg;
    try done.
  intros [= <-]. apply GetTree_Ok in Hg as (t & Ht & _ & ->). by exists name, t.
Qed.

(** C10. [Rewind] leaves the validity flag of the weight cache as it was and
    sets the stored weight to 1.  So for a simulation sample whose cache is
    valid when [Rewind] is called, [GetWeight] called next, before any
    [ReadNextEvent], returns 1 (as the cached value, the model not called),
    whatever weight had been computed. *)
Theorem C10_rewind_stale_weight (r r' : Reader) :
  Rewind r = Ok r' →
  weightCached (cache r') = weightCached (cache r) ∧
  weight (cache r') = dbl_one ∧
  (isMC r = true → weightCached (cache r) = true → GetWeight r' = (dbl_one, r')).
Proof.
  intros (name & t & _ & _ & ->)%Rewind_Ok. split_and!; [done..|].
  intros Hmc Hc. by rewrite GetWeight_cached.
Qed.

Lemma C10_rewind_stale_weight_witness :
  weight (cache (Sample.after [CReadNextEvent; CGetWeight] Sample.reader_S)) = 6%float ∧
  weightCached (cache (Sample.after [CReadNextEvent; CGetWeight] Sample.reader_S)) = true ∧
  (GetWeight (Sample.after [CReadNextEvent; CGetWeight; CRewind] Sample.reader_S)).1 = 1%float.
Proof.
  split; [vm_compute; reflexivity|]. split; [vm_compute; reflexivity|].
  rewrite (proj2 (proj2 (C10_rewind_stale_weight
             (Sample.after [CReadNextEvent; CGetWeight] Sample.reader_S)
             (Sample.after [CReadNextEvent; CGetWeight; CRewind] Sample.reader_S)
             ltac:(vm_compute; reflexivity)))); [reflexivity| |]; vm_compute; reflexivity.
Defined.

(** ** C7: construction over no tree names *)

(** C7. The constructor makes no check of an empty sequence of tree names:
    with a usable source file it dereferences the begin iterator of the empty
    list, which is its end iterator, and the construction has no defined
    result; no exception reports the empty sequence.  (With an unusable source
    file it throws the error of that file.) *)
Theorem C7_empty_names_unchecked (f : TFile) (mc : bool) (csv : CSVReweighter)
    (u : Uninitialised) :
  Reader_new (Some f) [] mc csv u =
    (if IsZombie f then Throw (runtime_error msg_bad_source) else Undefined) ∧
  Reader_new None [] mc csv u = Throw (runtime_error msg_bad_source).
Proof. split; [|done]. unfold Reader_new. by destruct (IsZombie f). Qed.

(** ** C8: calls at the end of the stream *)

(** The first call at the end of the stream returns [false] and moves only the
    iterator, to [end()]. *)
Lemma ReadNextEvent_false_frame (r r1 : Reader) :
  ReadNextEvent r = Ok (false, r1) →
  r1 = set_curTreeNameIt (length (treeNames r)) r ∧
  event r1 = event r ∧ buffers r1 = buffers r ∧ cache r1 = cache r ∧
  selection r1 = selection r ∧ csvCalls r1 = csvCalls r ∧
  curEntry (cursor r1) = nEntries (cursor r1).
Proof.
  intros [(_ & He & Hit & ->)|(? & _)]%ReadNextEvent_Ok; [|done].
  rewrite Hit. by split_and!.
Qed.

(** C8. A call of [ReadNextEvent] that returns [false] leaves the decoded
    event, the buffers and the weight cache as they were, but it has moved the
    tree-name iterator to [end()]: the next call, with no [Rewind] between,
    increments that iterator, which has no defined behaviour, so the code does
    not make repeated calls return [false]. *)
Theorem C8_call_after_false_undefined (r r1 : Reader) :
  ReadNextEvent r = Ok (false, r1) →
  (event r1 = event r ∧ buffers r1 = buffers r ∧ cache r1 = cache r) ∧
  curTreeNameIt (cursor r1) = length (treeNames r1) ∧
  ReadNextEvent r1 = Undefined.
Proof.
  intros (-> & _ & _ & _ & _ & _ & He)%ReadNextEvent_false_frame.
  split_and!; try done.
  unfold ReadNextEvent. rewrite decide_True by done.
  rewrite decide_False; [done|]. simpl. lia.
Qed.

Lemma C8_call_after_false_undefined_witness :
  replies (read_n 2 Sample.reader_S) = Some [RBool true; RBool false] ∧
  ReadNextEvent (Sample.after [CReadNextEvent; CReadNextEvent] Sample.reader_S) = Undefined.
Proof.
  split; [vm_compute; reflexivity|].
  apply (C8_call_after_false_undefined (Sample.after [CReadNextEvent] Sample.reader_S)).
  vm_compute. reflexivity.
Defined.

(** ** C4: iteration over several trees *)

(** The sample of the spec: trees of 3 and 2 entries give 5 events, then
    [false]. *)
Example read_3_and_2 :
  replies (read_n 6 Sample.reader_AB)
  = Some [RBool true; RBool true; RBool true; RBool true; RBool true; RBool false].
Proof. vm_compute. reflexivity. Qed.

Lemma calls_app cs1 cs2 r :
  calls (cs1 ++ cs2) r = p ← calls cs1 r; q ← calls cs2 p.2; Ok (p.1 ++ q.1, q.2).
Proof.
  revert r. induction cs1 as [|c cs1 IH]; intros r; simpl.
  - by destruct (calls cs2 r) as [[os r2]| | |].
  - destruct (call c r) as [[o r1]| | |]; [|done..]. simpl. rewrite IH.
    destruct (calls cs1 r1) as [[os1 r2]| | |]; [|done..]. simpl.
    by destruct (calls cs2 r2) as [[os2 r3]| | |].
Qed.

(** With the cursor past the entry count, [ReadNextEvent] returns [true]
    without loading anything, and the cursor stays past it. *)
Lemma read_past_count (n : nat) (r : Reader) (t : TTree) :
  curTree (cursor r) = Some t →
  nEntries (cursor r) = Z.of_nat (length t) →
  nEntries (cursor r) < curEntry (cursor r) →
  ∃ rn, read_n n r = Ok (replicate n (RBool true), rn) ∧ buffers rn = buffers r.
Proof.
  revert r. induction n as [|n IH]; intros r Ht Hn Hlt; [by exists r|].
  assert (ReadNextEvent r = Ok (true, decode_event r)) as Hr.
  { unfold ReadNextEvent. rewrite decide_False by lia.
    unfold load_and_decode, GetEntry. rewrite Ht.
    rewrite decide_True by lia. rewrite lookup_ge_None_2 by lia. done. }
  destruct (IH (decode_event r)) as (rn & Hrn & Hb); [done|done|cbn; lia|].
  exists rn. rewrite read_n_S, Hr, bind_Ok_l. cbn [fst snd]. by rewrite Hrn.
Qed.

(** C4. Over trees of 1 and 0 entries, where one call should succeed and the
    next return [false], every call returns [true]: entering the empty tree,
    [ReadNextEvent] does not compare the cursor with the entry count again,
    asks the tree for entry 0, which it does not have, and reports the buffers
    of the event before as a new event; from then on the cursor is past the
    entry count and never equal to it. *)
Theorem C4_empty_tree_read_as_event (n : nat) :
  replies (read_n n Sample.reader_SE) = Some (replicate n (RBool true)) ∧
  buffers (Sample.after (replicate 2 CReadNextEvent) Sample.reader_SE)
    = buffers (Sample.after (replicate 1 CReadNextEvent) Sample.reader_SE) ∧
  curEntry (cursor (Sample.after (replicate 2 CReadNextEvent) Sample.reader_SE)) = 1 ∧
  nEntries (cursor (Sample.after (replicate 2 CReadNextEvent) Sample.reader_SE)) = 0.
Proof.
  split; [|vm_compute; by split_and!].
  destruct n as [|[|n]]; [vm_compute; reflexivity..|].
  change (S (S n)) with (2 + n)%nat. unfold read_n. rewrite replicate_add, calls_app.
  assert (calls (replicate 2 CReadNextEvent) Sample.reader_SE
          = Ok ([RBool true; RBool true],
                Sample.after (replicate 2 CReadNextEvent) Sample.reader_SE)) as ->
    by (vm_compute; reflexivity).
  rewrite bind_Ok_l. cbn [fst snd].
  destruct (read_past_count n (Sample.after (replicate 2 CReadNextEvent) Sample.reader_SE) [])
    as (rn & Hrn & _); [vm_compute; reflexivity..|].
  unfold read_n in Hrn. by rewrite Hrn.
Qed.

(** ** What the operations leave alone *)

Lemma GetEntry_Ok i r r' :
  GetEntry i r = Ok r' →
  ∃ t, curTree (cursor r) = Some t ∧
    r' = with_buffers
           (match (if decide (0 ≤ i) then t !! Z.to_nat i else None) with
            | Some e => fill (isMC r) e (buffers r)
            | None => buffers r
            end) r.
Proof.
  unfold GetEntry. destruct (curTree (cursor r)) as [t|]; [|done].
  intros H. exists t. split; [done|].
  destruct (if decide (0 ≤ i) then t !! Z.to_nat i else None); by injection H as <-.
Qed.

#[local] Instance same_setup_refl : Reflexive same_setup.
Proof. by intros r. Qed.

Lemma same_setup_trans r1 r2 r3 : same_setup r1 r2 → same_setup r2 r3 → same_setup r1 r3.
Proof. intros (?&?&?&?) (?&?&?&?). split_and!; congruence. Qed.

Lemma ReadNextEvent_same_setup r b r' :
  ReadNextEvent r = Ok (b, r') → same_setup r r'.
Proof.
  intros [(_ & _ & _ & ->)|(_ & r0 & r1 & Hr1 & -> & Hr0)]%ReadNextEvent_Ok; [done|].
  apply GetEntry_Ok in Hr1 as (t & _ & ->).
  destruct Hr0 as [[_ ->]|(_ & _ & name & _ & (t' & _ & _ & ->)%GetTree_Ok)]; done.
Qed.

Lemma Rewind_same_setup r r' : Rewind r = Ok r' → same_setup r r'.
Proof. by intros (name & t & _ & _ & ->)%Rewind_Ok. Qed.

Lemma call_Ok_inv c r o r' :
  call c r = Ok (o, r') →
  match c with
  | CReadNextEvent => ∃ b, o = RBool b ∧ ReadNextEvent r = Ok (b, r')
  | CRewind => o = RVoid ∧ Rewind r = Ok r'
  | CSetSystematics t d => o = RVoid ∧ r' = SetSystematics t d r
  | CGetWeight => o = RWeight (GetWeight r).1 ∧ r' = (GetWeight r).2
  | CSwitchBTagReweighting on => o = RVoid ∧ r' = SwitchBTagReweighting on r
  end.
Proof.
  destruct c; simpl; intros H.
  - apply bind_Ok in H as ([b r1] & H1 & [= <- <-]). eauto.
  - apply bind_Ok in H as (r1 & H1 & [= <- <-]). eauto.
  - by injection H as <- <-.
  - by injection H as <- <-.
  - by injection H as <- <-.
Qed.

Lemma GetWeight_same_setup r : same_setup r (GetWeight r).2.
Proof.
  unfold GetWeight. destruct (negb (isMC r)); [done|].
  destruct (weightCached (cache r)); [done|]. simpl.
  destruct (applyBTagReweighting (selection r)); [|done].
  by rewrite foldl_reweight_jet.
Qed.

Lemma call_same_setup c r o r' : call c r = Ok (o, r') → same_setup r r'.
Proof.
  intros H%call_Ok_inv. destruct c.
  - destruct H as (b & _ & H). by eapply ReadNextEvent_same_setup.
  - destruct H as [_ H]. by apply Rewind_same_setup.
  - by destruct H as [_ ->].
  - destruct H as [_ ->]. apply GetWeight_same_setup.
  - by destruct H as [_ ->].
Qed.

Lemma calls_cons_Ok c cs r os r' :
  calls (c :: cs) r = Ok (os, r') →
  ∃ o r1 os', call c r = Ok (o, r1) ∧ calls cs r1 = Ok (os', r') ∧ os = o :: os'.
Proof.
  simpl. intros H. apply bind_Ok in H as ([o r1] & H1 & H).
  apply bind_Ok in H as ([os' r2] & H2 & [= <- <-]). by exists o, r1, os'.
Qed.

Lemma calls_same_setup cs r os r' : calls cs r = Ok (os, r') → same_setup r r'.
Proof.
  revert r os. induction cs as [|c cs IH]; intros r os H.
  - by injection H as <- <-.
  - apply calls_cons_Ok in H as (o & r1 & os' & H1 & H2 & ->).
    eapply same_setup_trans; [by eapply call_same_setup|by eapply IH].
Qed.

(** ** C1: when the weight is recomputed *)

(** What one call other than [GetWeight] does to the cache and to the record
    of the model's calls. *)
Lemma call_cache c r o r' :
  call c r = Ok (o, r') → is_CGetWeight c = false →
  weightCached (cache r') = weightCached (cache r) && negb (invalidates c o) ∧
  csvCalls r' = csvCalls r ∧
  (is_CRewind c = false → invalidates c o = false → weight (cache r') = weight (cache r)).
Proof.
  intros H%call_Ok_inv Hc. destruct c; try done.
  - destruct H as (b & -> & H). apply ReadNextEvent_Ok in H
      as [(-> & _ & _ & ->)|(-> & r0 & r1 & Hr1 & -> & Hr0)]; simpl.
    + by rewrite andb_true_r.
    + rewrite andb_false_r. split_and!; [done| |done].
      apply GetEntry_Ok in Hr1 as (t & _ & ->).
      destruct Hr0 as [[_ ->]|(_ & _ & name & _ & (t' & _ & _ & ->)%GetTree_Ok)]; done.
  - destruct H as [-> (name & t & _ & _ & ->)%Rewind_Ok]. simpl.
    by rewrite andb_true_r.
  - destruct H as [-> ->]. simpl. by rewrite andb_false_r.
  - destruct H as [-> ->]. simpl. by rewrite andb_true_r.
Qed.

Lemma calls_cache cs r os r' :
  calls cs r = Ok (os, r') → no_GetWeight cs = true →
  weightCached (cache r') = weightCached (cache r) && negb (invalidated cs os) ∧
  csvCalls r' = csvCalls r ∧
  (no_Rewind cs = true → invalidated cs os = false → weight (cache r') = weight (cache r)).
Proof.
  revert r os. induction cs as [|c cs IH]; intros r os H Hg.
  - injection H as <- <-. by rewrite andb_true_r.
  - apply calls_cons_Ok in H as (o & r1 & os' & H1 & H2 & ->).
    apply andb_true_iff in Hg as [Hc%negb_true_iff Hg].
    destruct (call_cache _ _ _ _ H1 Hc) as (Hf1 & Hl1 & Hw1).
    destruct (IH _ _ H2 Hg) as (Hf & Hl & Hw).
    unfold invalidated in *. simpl. split_and!.
    + rewrite Hf, Hf1, negb_orb. by rewrite andb_assoc.
    + congruence.
    + intros [Hr%negb_true_iff Hrs]%andb_true_iff [Hi His]%orb_false_iff.
      rewrite Hw, Hw1; done.
Qed.

Lemma GetWeight_caches (r : Reader) :
  isMC r = true →
  weightCached (cache (GetWeight r).2) = true ∧
  weight (cache (GetWeight r).2) = (GetWeight r).1.
Proof.
  intros Hmc. destruct (weightCached (cache r)) eqn:Hc.
  - by rewrite GetWeight_cached.
  - by rewrite GetWeight_recompute.
Qed.

(** C1 (as amended). For a simulation sample, take the state a call of
    [GetWeight] left and make any calls other than [GetWeight]; let b-tag
    reweighting be on afterwards.  If one of the calls was [SetSystematics]
    (with any arguments, the current selection included) or a [ReadNextEvent]
    that returned [true], the next [GetWeight] recomputes: it calls the model
    once for each nominal jet, in order, and returns the raw weight times the
    non-zero factors.  If none was, it calls the model not at all, leaves the
    state as it is and returns the stored weight, which is the weight computed
    before when no [Rewind] was among the calls. *)
Theorem C1_recompute_iff_invalidated (r0 : Reader) (cs : list Call) (os : list Reply)
    (r' : Reader) :
  isMC r0 = true →
  no_GetWeight cs = true →
  calls cs (GetWeight r0).2 = Ok (os, r') →
  applyBTagReweighting (selection r') = true →
  (invalidated cs os = true →
     csvCalls (GetWeight r').2 = csvCalls r' ++ per_jet_calls r' ∧
     (GetWeight r').1 =
       foldl PrimFloat.mul (rawWeight (buffers r'))
         (filter (λ w, dbl_neq_zero w = true) (per_jet_factors r'))) ∧
  (invalidated cs os = false →
     (GetWeight r').2 = r' ∧
     (GetWeight r').1 = weight (cache r') ∧
     (no_Rewind cs = true → (GetWeight r').1 = (GetWeight r0).1)).
Proof.
  intros Hmc Hg Hcs Hb.
  destruct (GetWeight_caches r0 Hmc) as [Hc0 Hw0].
  destruct (calls_cache _ _ _ _ Hcs Hg) as (Hf & _ & Hw).
  assert (isMC r' = true) as Hmc'.
  { destruct (calls_same_setup _ _ _ _ Hcs) as (_ & _ & -> & _).
    by destruct (GetWeight_same_setup r0) as (_ & _ & -> & _). }
  rewrite Hc0 in Hf. simpl in Hf. split.
  - intros Hi. rewrite Hi in Hf. rewrite GetWeight_recompute by done.
    simpl. by rewrite Hb.
  - intros Hi. rewrite Hi in Hf. rewrite GetWeight_cached by done.
    simpl. split_and!; [done..|]. intros Hr. rewrite Hw by done. done.
Qed.

Lemma C1_recompute_iff_invalidated_witness :
  length (csvCalls (GetWeight (Sample.after [CReadNextEvent] Sample.reader_AB)).2) = 3%nat ∧
  csvCalls (GetWeight (Sample.after [CReadNextEvent; CGetWeight; CSetSystematics Nominal Up]
                         Sample.reader_AB)).2
  = csvCalls (Sample.after [CReadNextEvent; CGetWeight; CSetSystematics Nominal Up]
                Sample.reader_AB)
    ++ per_jet_calls (Sample.after [CReadNextEvent; CGetWeight; CSetSystematics Nominal Up]
                        Sample.reader_AB).
Proof.
  split; [vm_compute; reflexivity|].
  apply (C1_recompute_iff_invalidated
           (Sample.after [CReadNextEvent] Sample.reader_AB)
           [CSetSystematics Nominal Up] [RVoid]); vm_compute; reflexivity.
Defined.

(** C1 as stated fails in two ways.  A [ReadNextEvent] that returns [false]
    has been called since the weight was computed, yet the next [GetWeight]
    returns the cached 6 and the model, called for 3 jets before, is not
    called again.  And with neither [ReadNextEvent] nor [SetSystematics] but a
    [Rewind] between two [GetWeight], the second returns 1, not the cached
    6. *)
Lemma C1_counterexample :
  replies (calls [CReadNextEvent; CGetWeight; CReadNextEvent; CGetWeight] Sample.reader_S)
    = Some [RBool true; RWeight 6; RBool false; RWeight 6] ∧
  length (jets (event (Sample.after [CReadNextEvent; CGetWeight; CReadNextEvent]
                         Sample.reader_S))) = 3%nat ∧
  length (csvCalls (Sample.after [CReadNextEvent; CGetWeight] Sample.reader_S)) = 3%nat ∧
  length (csvCalls (Sample.after [CReadNextEvent; CGetWeight; CReadNextEvent; CGetWeight]
                      Sample.reader_S)) = 3%nat ∧
  replies (calls [CReadNextEvent; CGetWeight; CRewind; CGetWeight] Sample.reader_S)
    = Some [RBool true; RWeight 6; RVoid; RWeight 1].
Proof. vm_compute. by split_and!. Qed.

(** ** C6: the first event again after [Rewind] *)

Lemma later_trees_nonempty_setup r r' i :
  same_setup r r' → later_trees_nonempty r i → later_trees_nonempty r' i.
Proof.
  intros (Hf & Hn & _ & _) H j name Hj Hname. rewrite Hf, Hn. apply (H j); [done|].
  by rewrite <-Hn.
Qed.

Lemma Reader_new_Ok f names mc csv u r0 :
  Reader_new (Some f) names mc csv u = Ok r0 →
  ∃ name t, names !! 0%nat = Some name ∧ objects f !! name = Some (ObjTree t) ∧
    srcFile r0 = f ∧ treeNames r0 = names ∧ isMC r0 = mc ∧ csvReweighter r0 = csv ∧
    cursor r0 = at_start t ∧
    selection r0 = {| curSystType := Nominal; curSystDirection := Up;
                      applyBTagReweighting := true |}.
Proof.
  unfold Reader_new. destruct (IsZombie f); [done|].
  intros (name & Hname & (t & Ht & _ & ->)%GetTree_Ok)%bind_Ok.
  unfold deref_curTreeNameIt in Hname. simpl in Hname.
  destruct (names !! 0%nat) as [name'|] eqn:Hn; [|done]. injection Hname as ->.
  exists name, t. by split_and!.
Qed.

Lemma Reader_new_curTreeKey f names mc csv u r0 :
  Reader_new (Some f) names mc csv u = Ok r0 → curTreeKey r0 = names !! 0%nat.
Proof.
  unfold Reader_new. destruct (IsZombie f); [done|].
  intros (name & Hname & (t & Ht & _ & ->)%GetTree_Ok)%bind_Ok.
  unfold deref_curTreeNameIt in Hname. simpl in Hname.
  destruct (names !! 0%nat) as [name'|] eqn:Hn; [|done]. by injection Hname as ->.
Qed.

Lemma GetWeight_cursor r : cursor (GetWeight r).2 = cursor r.
Proof.
  unfold GetWeight. destruct (negb (isMC r)); [done|].
  destruct (weightCached (cache r)); [done|]. simpl.
  destruct (applyBTagReweighting (selection r)); [|done].
  by rewrite foldl_reweight_jet.
Qed.

Lemma GetWeight_curTreeKey r : curTreeKey (GetWeight r).2 = curTreeKey r.
Proof.
  unfold GetWeight. destruct (negb (isMC r)); [done|].
  destruct (weightCached (cache r)); [done|]. simpl.
  destruct (applyBTagReweighting (selection r)); [|done].
  by rewrite foldl_reweight_jet.
Qed.

Lemma call_cursor_inv c r o r' :
  call c r = Ok (o, r') → cursor_inv r → cursor_inv r'.
Proof.
  intros H Hinv. pose proof (call_same_setup _ _ _ _ H) as Hsetup.
  apply call_Ok_inv in H. destruct c.
  - destruct H as (b & _ & H). apply ReadNextEvent_Ok in H
      as [(_ & He & Hit & ->)|(_ & r0 & r1 & Hr1 & -> & Hr0)].
    + destruct Hinv as [(Hle & Hlater & Hkey)|[Hlt _]]; [|simpl in *; lia].
      left. split; [done|]. cbn. split; [|lia]. intros j name Hj Hname.
      apply (Hlater j); [|done]. apply lookup_lt_Some in Hname. cbn in Hname. lia.
    + apply GetEntry_Ok in Hr1 as (t & Ht & ->).
      destruct Hr0 as [[Hne ->]|(He & Hlt & name & Hname & (t' & Ht' & Hk & ->)%GetTree_Ok)].
      * destruct Hinv as [(Hle & Hlater & Hkey)|[Hlt Hit]]; [left|right]; cbn;
          split_and!; (done || lia).
      * destruct Hinv as [(Hle & Hlater & Hkey)|[Hlt' _]]; [|lia].
        cbn in Hk. rewrite Hkey in Hk by lia.
        cbn in *. destruct t' as [|e t'].
        -- right. cbn. split; [lia|done].
        -- left. cbn. split_and!; [lia| |done].
           intros j name' Hj Hname'. cbn in Hj, Hname'.
           destruct (decide (j = S (curTreeNameIt (cursor r)))) as [->|].
           ++ rewrite Hname in Hname'. injection Hname' as <-.
              split; [by exists (e :: t')|]. by rewrite Nat.sub_1_r.
           ++ apply (Hlater j); [lia|done].
  - destruct H as [_ (name & t & Hname & _ & ->)%Rewind_Ok].
    left. cbn. split_and!; [lia| |done]. intros j name' Hj. lia.
  - by destruct H as [_ ->].
  - destruct H as [_ ->]. unfold cursor_inv in *.
    destruct (GetWeight_same_setup r) as (_ & Hn & _ & _).
    rewrite GetWeight_cursor, GetWeight_curTreeKey, Hn.
    destruct Hinv as [(Hle & Hlater & Hkey)|?]; [left|by right]. split_and!; [done| |done].
    by eapply later_trees_nonempty_setup; [apply GetWeight_same_setup|].
  - by destruct H as [_ ->].
Qed.

Lemma calls_cursor_inv cs r os r' :
  calls cs r = Ok (os, r') → cursor_inv r → cursor_inv r'.
Proof.
  revert r os. induction cs as [|c cs IH]; intros r os H Hinv.
  - by injection H as <- <-.
  - apply calls_cons_Ok in H as (o & r1 & os' & H1 & H2 & ->).
    eapply IH; [done|]. by eapply call_cursor_inv.
Qed.

(** The first [ReadNextEvent] from the start of the first tree: it loads
    [first_entry], or returns [false] when there is none. *)
Lemma ReadNextEvent_at_start r t name0 :
  treeNames r !! 0%nat = Some name0 →
  curTreeKey r = Some name0 →
  cursor r = at_start t →
  later_trees_nonempty r 1 →
  match first_entry r t with
  | Some e =>
      ∃ x, ReadNextEvent r = Ok (true, decode_event x) ∧
        isMC x = isMC r ∧ csvReweighter x = csvReweighter r ∧
        buffers x = fill (isMC r) e (buffers r) ∧
        event x = event r ∧ selection x = selection r
  | None => ∃ rf, ReadNextEvent r = Ok (false, rf)
  end.
Proof.
  intros Hn0 Hkey Hc Hlater. apply lookup_lt_Some in Hn0 as Hlen.
  unfold ReadNextEvent, first_entry. rewrite Hc. destruct t as [|e t].
  - cbn -[GetTree load_and_decode deref_curTreeNameIt set_curTreeNameIt].
    rewrite decide_True by done. rewrite decide_True by lia.
    change (curTreeNameIt (cursor (set_curTreeNameIt 1 r))) with 1%nat.
    change (treeNames (set_curTreeNameIt 1 r)) with (treeNames r).
    destruct (decide (1%nat = length (treeNames r))) as [H1|H1].
    + rewrite lookup_ge_None_2 by lia. eauto.
    + destruct (treeNames r !! 1%nat) as [name|] eqn:Hname.
      2:{ apply lookup_ge_None in Hname. lia. }
      destruct (Hlater 1%nat name) as [(t1 & Ht1 & Hne) Hdist]; [lia|done|].
      destruct t1 as [|e1 t1]; [done|]. rewrite Ht1.
      cbn in Hdist. rewrite Hn0 in Hdist.
      rewrite (deref_set_curTreeNameIt _ _ name) by done. rewrite bind_Ok_l.
      rewrite (GetTree_found name _ (e1 :: t1)); [|done|cbn; by rewrite Hkey].
      rewrite bind_Ok_l.
      rewrite (load_and_decode_found _ (e1 :: t1) e1) by done.
      eexists. split; [reflexivity|]. by split_and!.
  - rewrite (load_and_decode_found r (e :: t) e);
      [|by rewrite Hc..].
    eexists. split; [reflexivity|]. by split_and!.
Qed.

Lemma first_entry_setup r r' t : same_setup r r' → first_entry r' t = first_entry r t.
Proof. intros (Hf & Hn & _ & _). unfold first_entry. by rewrite Hf, Hn. Qed.

(** Decoding the same entry gives the same event, whatever was decoded
    before. *)
Lemma decode_event_same x y e bx by' :
  isMC x = isMC y →
  buffers x = fill (isMC x) e bx → buffers y = fill (isMC y) e by' →
  same_decoded_event (decode_event x) (decode_event y).
Proof.
  intros Hmc Hx Hy. unfold same_decoded_event, GetLeptons, GetNumPV. cbn.
  rewrite Hx, Hy, <-Hmc. destruct (isMC x); cbn; by split_and!.
Qed.

(** With the same event, model and selection, a recomputed weight is the
    same. *)
Lemma same_decoded_event_weight r1 r2 :
  same_decoded_event r1 r2 → isMC r1 = isMC r2 →
  csvReweighter r1 = csvReweighter r2 → selection r1 = selection r2 →
  weightCached (cache r1) = false → weightCached (cache r2) = false →
  (GetWeight r1).1 = (GetWeight r2).1.
Proof.
  intros (_ & Hj & _ & _ & Hsim) Hmc Hcsv Hsel Hc1 Hc2.
  destruct (isMC r1) eqn:Hmc1.
  - destruct (Hsim eq_refl) as (_ & _ & _ & _ & Hraw).
    rewrite !GetWeight_recompute by done. cbn.
    unfold per_jet_factors. by rewrite Hsel, Hcsv, Hj, Hraw.
  - by rewrite !GetWeight_data.
Qed.

(** C6. Take a Reader as constructed, make any calls on it, and let the
    stream be exhausted afterwards.  Then [Rewind] followed by
    [ReadNextEvent] returns what the first [ReadNextEvent] after construction
    returned, and when that is [true], with the same decoded event: the same
    leptons, jets, MET and vertex count, for simulation the same shifted jets
    and METs, and, when the selection and the reweighting switch are those of
    the constructed Reader, the same [GetWeight]. *)
Theorem C6_rewind_first_event (f : TFile) (names : list string) (mc : bool)
    (csv : CSVReweighter) (u : Uninitialised) (r0 : Reader)
    (cs : list Call) (os : list Reply) (r rw : Reader) :
  Reader_new (Some f) names mc csv u = Ok r0 →
  calls cs r0 = Ok (os, r) →
  exhausted r →
  Rewind r = Ok rw →
  ∃ b r1 r2,
    ReadNextEvent r0 = Ok (b, r1) ∧ ReadNextEvent rw = Ok (b, r2) ∧
    (b = true →
     same_decoded_event r1 r2 ∧
     (selection r = selection r0 → (GetWeight r1).1 = (GetWeight r2).1)).
Proof.
  intros Hnew Hcs Hex Hrw.
  pose proof (Reader_new_curTreeKey _ _ _ _ _ _ Hnew) as Hkey0.
  apply Reader_new_Ok in Hnew as (name & t & Hname & Ht & Hf & Hn & Hmc & Hcsv & Hc0 & Hsel0).
  rewrite Hname in Hkey0.
  pose proof (calls_same_setup _ _ _ _ Hcs) as Hsetup.
  assert (cursor_inv r0) as Hinv0.
  { left. rewrite Hc0, Hkey0, Hn. cbn. split_and!; [lia| |by rewrite Hname].
    intros j ? ?. lia. }
  pose proof (calls_cursor_inv _ _ _ _ Hcs Hinv0) as Hinv.
  assert (later_trees_nonempty r0 1) as Hlater.
  { destruct Hinv as [(_ & Hl & _)|[_ Hlt]]; [|unfold exhausted in Hex; lia].
    destruct Hsetup as (Hf' & Hn' & _ & _).
    intros j nm Hj Hnm. rewrite <-Hf', <-Hn'. apply (Hl j); [|by rewrite Hn'].
    apply lookup_lt_Some in Hnm. unfold exhausted in Hex. rewrite Hex, Hn'. lia. }
  apply Rewind_Ok in Hrw as (name' & t' & Hname' & Ht' & ->).
  destruct Hsetup as (Hf' & Hn' & Hmc' & Hcsv').
  rewrite Hn', Hn, Hname in Hname'. injection Hname' as <-.
  rewrite Hf', Hf, Ht in Ht'. injection Ht' as <-.
  set (rw := set_weight dbl_one (with_curTreeKey _ (with_cursor _ r))).
  assert (same_setup r0 rw) as Hsetup_rw by (by split_and!).
  pose proof (ReadNextEvent_at_start r0 t name ltac:(by rewrite Hn) Hkey0 Hc0 Hlater) as H0.
  pose proof (ReadNextEvent_at_start rw t name ltac:(cbn; by rewrite Hn', Hn) eq_refl eq_refl
                (later_trees_nonempty_setup _ _ _ Hsetup_rw Hlater)) as Hw.
  rewrite (first_entry_setup r0 rw) in Hw by done.
  destruct (first_entry r0 t) as [e|].
  - destruct H0 as (x & Hx & Hxmc & Hxcsv & Hxb & _ & Hxsel).
    destruct Hw as (y & Hy & Hymc & Hycsv & Hyb & _ & Hysel).
    exists true, (decode_event x), (decode_event y). split_and!; [done..|].
    intros _. assert (isMC x = isMC y) as Hxy by (by rewrite Hxmc, Hymc; cbn).
    assert (same_decoded_event (decode_event x) (decode_event y)) as Hsame.
    { apply (decode_event_same x y e (buffers r0) (buffers rw)); [done| |].
      - by rewrite Hxmc.
      - by rewrite Hymc. }
    split; [done|]. intros Hsel.
    apply same_decoded_event_weight; try done.
    + cbn. by rewrite Hxcsv, Hycsv.
    + cbn. by rewrite Hxsel, Hysel.
  - destruct H0 as (rf & Hrf). destruct Hw as (rf' & Hrf').
    exists false, rf, rf'. by split_and!.
Qed.

Lemma C6_rewind_first_event_witness :
  exhausted (Sample.after (replicate 6 CReadNextEvent) Sample.reader_AB) ∧
  ∃ b r1 r2,
    ReadNextEvent Sample.reader_AB = Ok (b, r1) ∧
    ReadNextEvent (Sample.after (replicate 6 CReadNextEvent ++ [CRewind]) Sample.reader_AB)
      = Ok (b, r2) ∧
    (b = true →
     same_decoded_event r1 r2 ∧
     (selection (Sample.after (replicate 6 CReadNextEvent) Sample.reader_AB)
        = selection Sample.reader_AB →
      (GetWeight r1).1 = (GetWeight r2).1)).
Proof.
  split; [vm_compute; reflexivity|].
  apply (C6_rewind_first_event Sample.file ["A"; "B"] true Sample.csv Sample.junk
           Sample.reader_AB (replicate 6 CReadNextEvent)
           [RBool true; RBool true; RBool true; RBool true; RBool true; RBool false]
           (Sample.after (replicate 6 CReadNextEvent) Sample.reader_AB));
    vm_compute; reflexivity.
Defined.

(** ** Iteration over trees that have entries *)

Lemma fill_idemp mc e b : holds_entry mc e (fill mc e b).
Proof. unfold holds_entry. by destruct mc. Qed.

Lemma elem_of_concat {A} (x : A) (ls : list (list A)) :
  x ∈ concat ls → ∃ l, l ∈ ls ∧ x ∈ l.
Proof.
  induction ls as [|l ls IH]; simpl; [intros H; by apply elem_of_nil in H|].
  intros [H|H]%elem_of_app.
  - exists l. split; [left|done].
  - destruct (IH H) as (l' & ? & ?). exists l'. split; [by right|done].
Qed.

Lemma entries_left_from_trees (P : Buffers → Prop) trees i c e rest :
  Forall (Forall P) trees → entries_left trees i c = e :: rest → P e.
Proof.
  intros Hall Hleft.
  assert (e ∈ entries_left trees i c) as Hin by (rewrite Hleft; left).
  unfold entries_left in Hin. apply elem_of_app in Hin as [Hin|Hin].
  - destruct (trees !! i) as [t|] eqn:Ht; simpl in Hin; [|by rewrite drop_nil in Hin; apply elem_of_nil in Hin].
    apply (proj1 (Forall_forall _ _) (proj1 (Forall_lookup _ _) Hall i t Ht)).
    apply list_elem_of_lookup in Hin as [k Hk]. rewrite lookup_drop in Hk.
    by eapply list_elem_of_lookup_2.
  - apply elem_of_concat in Hin as (t & Ht & Hin).
    apply list_elem_of_lookup in Ht as [k Hk]. rewrite lookup_drop in Hk.
    by apply (proj1 (Forall_forall _ _) (proj1 (Forall_lookup _ _) Hall _ t Hk)).
Qed.

Lemma sort_reversed_pt_not_nan {A} (lt : A → A → bool) (pt : A → double) (v : list A) :
  pt_not_nan pt v → pt_not_nan pt (sort_reversed lt v).
Proof. unfold pt_not_nan. by rewrite sort_reversed_Permutation. Qed.

(** Decoding an entry without a NaN transverse momentum gives an event
    without one. *)
Lemma decode_event_pt_not_nan r1 e old :
  buffers r1 = fill (isMC r1) e old → entry_pt_not_nan (isMC r1) e →
  event_pt_not_nan (decode_event r1).
Proof.
  intros Hbuf (Hl & Hj & Hmc). unfold event_pt_not_nan.
  change (event (decode_event r1))
    with (decode (isMC r1) (buffers r1) (event r1)).
  change (isMC (decode_event r1)) with (isMC r1).
  rewrite Hbuf. unfold fill. destruct (isMC r1) eqn:Hb; cbn.
  - destruct (Hmc eq_refl) as [Hu Hd].
    split_and!; [by apply sort_reversed_pt_not_nan..|]. intros _.
    split; by apply sort_reversed_pt_not_nan.
  - split_and!; [by apply sort_reversed_pt_not_nan..|done].
Qed.

Lemma ReadNextEvent_pt_not_nan r r' e old :
  ReadNextEvent r = Ok (true, r') → buffers r' = fill (isMC r') e old →
  entry_pt_not_nan (isMC r') e → event_pt_not_nan r'.
Proof.
  intros [r1 ->]%ReadNextEvent_true_decoded Hbuf Hnan.
  by apply (decode_event_pt_not_nan r1 e old).
Qed.

Lemma concat_from_trees (P : Buffers → Prop) (trees : list TTree) k e :
  Forall (Forall P) trees → concat trees !! k = Some e → P e.
Proof.
  intros Hall Hk. apply list_elem_of_lookup_2, elem_of_concat in Hk as (t & Ht & Hin).
  by apply (proj1 (Forall_forall _ _) (proj1 (Forall_forall _ _) Hall t Ht)).
Qed.

Section iteration.
Context (f : TFile) (names : list string) (trees : list TTree).
Hypothesis resolved :
  Forall2 (λ name t, objects f !! name = Some (ObjTree t)) names trees.
Hypothesis later_nonempty : Forall (λ t, t ≠ []) (tail trees).
Hypothesis distinct : adjacent_distinct names.

(** One [ReadNextEvent] takes the next entry left, or returns [false] when
    none is. *)
Lemma ReadNextEvent_at_pos r i c :
  at_pos f names trees r i c →
  match entries_left trees i c with
  | [] => ∃ rf, ReadNextEvent r = Ok (false, rf)
  | e :: rest =>
      ∃ r' i' c', ReadNextEvent r = Ok (true, r') ∧ isMC r' = isMC r ∧
        at_pos f names trees r' i' c' ∧ entries_left trees i' c' = rest ∧
        buffers r' = fill (isMC r) e (buffers r)
  end.
Proof.
  intros (Hf & Hn & Hkey & t & Ht & Hc & Hcur). unfold entries_left. rewrite Ht. simpl.
  pose proof (Forall2_length _ _ _ resolved) as Hlen.
  apply lookup_lt_Some in Ht as Hi.
  unfold ReadNextEvent. rewrite Hcur.
  cbn -[GetTree load_and_decode deref_curTreeNameIt set_curTreeNameIt].
  destruct (decide (c = length t)) as [->|Hne].
  - rewrite drop_all. cbn [app]. rewrite decide_True by done.
    rewrite decide_True by (rewrite Hn; lia).
    change (curTreeNameIt (cursor (set_curTreeNameIt (S i) r))) with (S i).
    change (treeNames (set_curTreeNameIt (S i) r)) with (treeNames r).
    destruct (decide (S i = length (treeNames r))) as [Hend|Hend].
    + rewrite drop_ge by (rewrite Hn in Hend; lia). cbn [app concat]. eauto.
    + rewrite Hn in Hend.
      destruct (lookup_lt_is_Some_2 trees (S i)) as [t' Ht']; [lia|].
      destruct (Forall2_lookup_r _ _ _ _ _ resolved Ht') as (name' & Hname' & Hobj).
      assert (t' ≠ []) as Hne'.
      { apply (proj1 (Forall_lookup _ _) later_nonempty i). by rewrite lookup_tail. }
      destruct t' as [|e t']; [done|].
      assert (curTreeKey r ≠ Some name') as Hk.
      { rewrite Hkey. intros Hi'. by apply (distinct i name'). }
      rewrite (drop_S _ _ _ Ht'). cbn [app concat].
      rewrite (deref_set_curTreeNameIt _ _ name') by (by rewrite Hn).
      rewrite bind_Ok_l. cbv beta.
      rewrite (GetTree_found name' _ (e :: t')) by (done || by rewrite <-Hf in Hobj).
      rewrite bind_Ok_l. cbv beta.
      rewrite (load_and_decode_found _ (e :: t') e) by done.
      eexists _, (S i), 1%nat. split; [reflexivity|]. split; [done|].
      split; [|split; [|done]].
      * split_and!; [done..|]. exists (e :: t'). split_and!; [done|simpl; lia|done].
      * unfold entries_left. rewrite Ht'. simpl. by rewrite drop_0.
  - assert (c < length t)%nat as Hlt by lia.
    destruct (lookup_lt_is_Some_2 t c Hlt) as [e He].
    rewrite (drop_S _ _ _ He). cbn [app].
    rewrite decide_False by lia.
    rewrite (load_and_decode_found _ t e);
      [|by rewrite Hcur|rewrite Hcur; cbn; lia|by rewrite Hcur; cbn; rewrite Nat2Z.id].
    eexists _, i, (S c). split; [reflexivity|]. split; [done|].
    split; [|split; [|done]].
    + split_and!; [done..|]. exists t. split_and!; [done|lia|].
      cbn. rewrite Hcur. cbn. f_equal. lia.
    + unfold entries_left. by rewrite Ht.
Qed.

(** From a position, as many calls return [true] as entries are left, each
    with the next entry in the buffers, and the call after them returns
    [false]. *)
Lemma read_entries_left r i c :
  at_pos f names trees r i c →
  (∀ k e, entries_left trees i c !! k = Some e →
     ∃ rk, read_n (S k) r = Ok (replicate (S k) (RBool true), rk) ∧
       holds_entry (isMC r) e (buffers rk) ∧
       (entry_pt_not_nan (isMC r) e → event_pt_not_nan rk)) ∧
  replies (read_n (S (length (entries_left trees i c))) r)
    = Some (replicate (length (entries_left trees i c)) (RBool true) ++ [RBool false]).
Proof.
  remember (entries_left trees i c) as rest eqn:Hrest.
  revert r i c Hrest. induction rest as [|e rest IH]; intros r i c Hrest Hpos.
  - pose proof (ReadNextEvent_at_pos r i c Hpos) as H. rewrite <-Hrest in H.
    destruct H as [rf Hrf]. split; [done|].
    rewrite read_n_S, Hrf. done.
  - pose proof (ReadNextEvent_at_pos r i c Hpos) as H. rewrite <-Hrest in H.
    destruct H as (r' & i' & c' & Hr' & Hmc & Hpos' & Hrest' & Hbuf).
    destruct (IH r' i' c' (eq_sym Hrest') Hpos') as [IHk IHend]. split.
    + intros [|k] e' Hk.
      * injection Hk as <-. exists r'. rewrite read_n_S, Hr'. split; [done|]. split.
        -- rewrite Hbuf. apply fill_idemp.
        -- intros Hnan. apply (ReadNextEvent_pt_not_nan r r' e (buffers r) Hr');
             by rewrite Hmc.
      * destruct (IHk k e' Hk) as (rk & Hrk & Hhold & Hnan).
        exists rk. rewrite read_n_S, Hr', bind_Ok_l. cbn [fst snd].
        rewrite Hrk, bind_Ok_l. split; [done|]. by rewrite <-Hmc.
    + rewrite read_n_S, Hr', bind_Ok_l. cbn [fst snd length].
      destruct (read_n (S (length rest)) r') as [[os rN]| | |]; [|done..].
      cbn in *. by injection IHend as ->.
Qed.
End iteration.

(** Closes [adjacent_distinct] for a list of names written out. *)
Ltac adjacent_distinct_by_cases :=
  let i := fresh "i" in
  intros i ? ? ?; do 3 (destruct i as [|i]; [cbn in *; congruence|]);
  cbn in *; congruence.



Example fourth_call_reads_second_tree :
  ∃ rk, read_n 4 Sample.reader_AB = Ok (replicate 4 (RBool true), rk) ∧
    holds_entry true Sample.ev4 (buffers rk).
Proof.
  exists (Sample.after (replicate 4 CReadNextEvent) Sample.reader_AB).
  split; vm_compute; reflexivity.
Qed.

(** ** Further properties of the operations *)

(** *** What [GetWeight] touches *)

Lemma GetWeight_state (r : Reader) :
  ∃ w l,
    (GetWeight r).2 = with_csvCalls (csvCalls r ++ l) (with_cache w r) ∧
    (isMC r = false → l = []).
Proof.
  destruct (isMC r) eqn:Hmc.
  - destruct (weightCached (cache r)) eqn:Hc.
    + rewrite GetWeight_cached by done. exists (cache r), []. cbn.
      by rewrite app_nil_r.
    + rewrite GetWeight_recompute by done. cbn. eexists _, _. split; [reflexivity|done].
  - rewrite GetWeight_data by done. exists (cache r), []. cbn. by rewrite app_nil_r.
Qed.

(** [GetWeight] changes the cache and the record of the model's calls only:
    the decoded event, the buffers, the cursor and the selection stay, so all
    accessors return what they returned; the calls made to the model are added
    at the end of the record; and a second [GetWeight] right after returns the
    same weight and changes nothing. *)
Theorem GetWeight_frame_idempotent (r : Reader) :
  (event (GetWeight r).2 = event r ∧ buffers (GetWeight r).2 = buffers r ∧
   cursor (GetWeight r).2 = cursor r ∧ selection (GetWeight r).2 = selection r) ∧
  (GetLeptons (GetWeight r).2 = GetLeptons r ∧ GetJets (GetWeight r).2 = GetJets r ∧
   GetMET (GetWeight r).2 = GetMET r ∧ GetNumPV (GetWeight r).2 = GetNumPV r) ∧
  csvCalls r `prefix_of` csvCalls (GetWeight r).2 ∧
  GetWeight (GetWeight r).2 = ((GetWeight r).1, (GetWeight r).2).
Proof.
  destruct (GetWeight_state r) as (w & l & Hr & _).
  split_and!; try (by rewrite Hr).
  all: try (unfold GetJets, GetMET; by rewrite Hr).
  - rewrite Hr. by exists l.
  - destruct (isMC r) eqn:Hmc.
    + destruct (GetWeight_caches r Hmc) as [Hc Hw].
      rewrite GetWeight_cached; [by rewrite Hw| |done].
      by destruct (GetWeight_same_setup r) as (_ & _ & -> & _).
    + rewrite (GetWeight_data r) by done. cbn [fst snd]. by rewrite GetWeight_data.
Qed.

(** *** The selection *)

Lemma call_selection c r o r' :
  call c r = Ok (o, r') →
  match c with
  | CSetSystematics t d =>
      curSystType (selection r') = t ∧
      curSystDirection (selection r') = (if decide (t = Nominal) then Up else d) ∧
      applyBTagReweighting (selection r') = applyBTagReweighting (selection r)
  | CSwitchBTagReweighting on =>
      curSystType (selection r') = curSystType (selection r) ∧
      curSystDirection (selection r') = curSystDirection (selection r) ∧
      applyBTagReweighting (selection r') = on
  | _ => selection r' = selection r
  end.
Proof.
  intros H%call_Ok_inv. destruct c.
  - destruct H as (b & _ & H). apply ReadNextEvent_Ok in H
      as [(_ & _ & _ & ->)|(_ & r0 & r1 & Hr1 & -> & Hr0)]; [done|].
    apply GetEntry_Ok in Hr1 as (t & _ & ->).
    destruct Hr0 as [[_ ->]|(_ & _ & name & _ & (t' & _ & _ & ->)%GetTree_Ok)]; done.
  - by destruct H as [_ (name & t & _ & _ & ->)%Rewind_Ok].
  - by destruct H as [_ ->].
  - destruct H as [_ ->]. destruct (GetWeight_state r) as (w & l & -> & _). done.
  - by destruct H as [_ ->].
Qed.

(** Along any calls on a constructed Reader the stored selection keeps the
    rule of [SetSystematics]: whenever the type is the nominal one, the
    direction is Up, whatever directions were passed. *)
Theorem nominal_direction_is_Up (f : TFile) (names : list string) (mc : bool)
    (csv : CSVReweighter) (u : Uninitialised) (r0 : Reader)
    (cs : list Call) (os : list Reply) (r : Reader) :
  Reader_new (Some f) names mc csv u = Ok r0 →
  calls cs r0 = Ok (os, r) →
  curSystType (selection r) = Nominal → curSystDirection (selection r) = Up.
Proof.
  intros (_ & _ & _ & _ & _ & _ & _ & _ & _ & Hsel)%Reader_new_Ok Hcs.
  assert (curSystType (selection r0) = Nominal → curSystDirection (selection r0) = Up)
    as Hinv by (by rewrite Hsel).
  clear Hsel. revert r0 os Hcs Hinv.
  induction cs as [|c cs IH]; intros r0 os Hcs Hinv.
  - by injection Hcs as <- <-.
  - apply calls_cons_Ok in Hcs as (o & r1 & os' & H1 & H2 & ->).
    apply (IH r1 os' H2). apply call_selection in H1.
    destruct c; try (by rewrite H1).
    + destruct H1 as (-> & -> & _). intros ->. by rewrite decide_True.
    + destruct H1 as (-> & -> & _). done.
Qed.

Lemma nominal_direction_is_Up_witness :
  curSystDirection
    (selection (Sample.after [CSetSystematics JEC Down; CReadNextEvent;
                              CSetSystematics Nominal Down] Sample.reader_AB)) = Up.
Proof.
  apply (nominal_direction_is_Up Sample.file ["A"; "B"] true Sample.csv Sample.junk
           Sample.reader_AB
           [CSetSystematics JEC Down; CReadNextEvent; CSetSystematics Nominal Down]
           [RVoid; RBool true; RVoid]); vm_compute; reflexivity.
Defined.

(** The selection and the reweighting switch persist: no number of
    [ReadNextEvent], [Rewind] and [GetWeight] calls changes them. *)
Theorem selection_persists (cs : list Call) (r : Reader) (os : list Reply) (r' : Reader) :
  no_selection_call cs = true →
  calls cs r = Ok (os, r') →
  selection r' = selection r.
Proof.
  revert r os. induction cs as [|c cs IH]; intros r os Hno Hcs.
  - by injection Hcs as <- <-.
  - apply calls_cons_Ok in Hcs as (o & r1 & os' & H1 & H2 & ->).
    apply andb_true_iff in Hno as [Hc%negb_true_iff Hno].
    rewrite (IH r1 os' Hno H2). apply call_selection in H1. by destruct c.
Qed.

Lemma selection_persists_witness :
  selection (Sample.after [CReadNextEvent; CGetWeight; CReadNextEvent; CRewind;
                           CReadNextEvent]
               (SetSystematics JEC Down Sample.reader_AB))
  = selection (SetSystematics JEC Down Sample.reader_AB).
Proof.
  apply (selection_persists
           [CReadNextEvent; CGetWeight; CReadNextEvent; CRewind; CReadNextEvent]
           (SetSystematics JEC Down Sample.reader_AB)
           [RBool true; RWeight 24; RBool true; RVoid; RBool true]);
    vm_compute; reflexivity.
Defined.

(** *** Data samples *)

Lemma Reader_new_csvCalls srcFile_ names mc csv u r0 :
  Reader_new srcFile_ names mc csv u = Ok r0 → csvCalls r0 = [].
Proof.
  unfold Reader_new. destruct srcFile_ as [f|]; [|done]. destruct (IsZombie f); [done|].
  by intros (name & _ & (t & _ & _ & ->)%GetTree_Ok)%bind_Ok.
Qed.

Lemma call_data c r o r' :
  isMC r = false → call c r = Ok (o, r') →
  isMC r' = false ∧ csvCalls r' = csvCalls r ∧ (∀ w, o = RWeight w → w = dbl_one).
Proof.
  intros Hmc H. destruct (call_same_setup _ _ _ _ H) as (_ & _ & Hmc' & _).
  split; [congruence|]. destruct (is_CGetWeight c) eqn:Hc.
  - destruct c; try done. apply call_Ok_inv in H as [-> ->].
    rewrite GetWeight_data by done. split; [done|]. by intros w [= <-].
  - destruct (call_cache _ _ _ _ H Hc) as (_ & Hl & _). split; [done|].
    apply call_Ok_inv in H. intros w ->. destruct c; try done.
    + by destruct H as (b & ? & _).
    + by destruct H.
    + by destruct H.
    + by destruct H.
Qed.

(** For a Reader constructed as data, along any calls every [GetWeight]
    returns 1 and the reweighting model is never called, whatever events were
    read and whatever selection and switch were set. *)
Theorem data_reader_weight_one (f : TFile) (names : list string) (csv : CSVReweighter)
    (u : Uninitialised) (r0 : Reader) (cs : list Call) (os : list Reply) (r : Reader) :
  Reader_new (Some f) names false csv u = Ok r0 →
  calls cs r0 = Ok (os, r) →
  Forall (λ o, ∀ w, o = RWeight w → w = dbl_one) os ∧
  csvCalls r = [] ∧ GetWeight r = (dbl_one, r).
Proof.
  intros Hnew Hcs. pose proof (Reader_new_csvCalls _ _ _ _ _ _ Hnew) as Hl.
  apply Reader_new_Ok in Hnew as (_ & _ & _ & _ & _ & _ & Hmc & _).
  revert r0 os Hcs Hl Hmc. induction cs as [|c cs IH]; intros r0 os Hcs Hl Hmc.
  - injection Hcs as <- <-. split_and!; [constructor|done|by apply GetWeight_data].
  - apply calls_cons_Ok in Hcs as (o & r1 & os' & H1 & H2 & ->).
    destruct (call_data _ _ _ _ Hmc H1) as (Hmc1 & Hl1 & Ho).
    destruct (IH r1 os' H2) as (Hos & ? & ?); [congruence|done|].
    split_and!; [by constructor|done..].
Qed.

Lemma data_reader_weight_one_witness :
  replies (calls [CReadNextEvent; CSetSystematics JEC Up; CGetWeight;
                  CSwitchBTagReweighting false; CReadNextEvent; CGetWeight]
             Sample.reader_data)
    = Some [RBool true; RVoid; RWeight 1; RVoid; RBool true; RWeight 1] ∧
  csvCalls (Sample.after [CReadNextEvent; CSetSystematics JEC Up; CGetWeight;
                          CSwitchBTagReweighting false; CReadNextEvent; CGetWeight]
              Sample.reader_data) = [].
Proof.
  split; [vm_compute; reflexivity|].
  apply (data_reader_weight_one Sample.file ["A"] Sample.csv Sample.junk
           Sample.reader_data
           [CReadNextEvent; CSetSystematics JEC Up; CGetWeight;
            CSwitchBTagReweighting false; CReadNextEvent; CGetWeight]
           [RBool true; RVoid; RWeight 1; RVoid; RBool true; RWeight 1]);
    vm_compute; reflexivity.
Defined.

(** *** Decoding *)

Lemma length_read_leptons b : length (read_leptons b) = Z.to_nat (lepSize b).
Proof. unfold read_leptons. by rewrite length_fmap, length_seq. Qed.

Lemma length_read_jets b : length (read_jets b) = Z.to_nat (jetSize b).
Proof. unfold read_jets. by rewrite length_fmap, length_seq. Qed.

(** Decoding keeps the objects of the entry: after a [ReadNextEvent] that
    returned [true], the leptons, the nominal jets and, for simulation, the
    jets of both shifted variants are rearrangements of what the buffers hold,
    as many as the count branches say (none for a count below 1), and the MET
    is the buffers' pair. *)
Theorem decoded_collections_Permutation (r r' : Reader) :
  ReadNextEvent r = Ok (true, r') →
  (GetLeptons r' ≡ₚ read_leptons (lepBuf (buffers r')) ∧
   jets (event r') ≡ₚ read_jets (jetBuf (buffers r')) ∧
   (isMC r' = true →
    jetsJECUp (event r') ≡ₚ read_jets (jetJECUpBuf (buffers r')) ∧
    jetsJECDown (event r') ≡ₚ read_jets (jetJECDownBuf (buffers r')))) ∧
  (length (GetLeptons r') = Z.to_nat (lepSize (lepBuf (buffers r'))) ∧
   length (jets (event r')) = Z.to_nat (jetSize (jetBuf (buffers r')))) ∧
  met (event r') = mkMET (metPt (buffers r')) (metPhi (buffers r')).
Proof.
  intros [r1 ->]%ReadNextEvent_true_decoded. unfold GetLeptons. cbn.
  split_and!; try done.
  - apply sort_reversed_Permutation.
  - apply sort_reversed_Permutation.
  - intros ->. split; apply sort_reversed_Permutation.
  - by rewrite sort_reversed_Permutation, length_read_leptons.
  - by rewrite sort_reversed_Permutation, length_read_jets.
Qed.

Lemma decoded_collections_Permutation_witness :
  length (GetLeptons (Sample.after [CReadNextEvent] Sample.reader_AB)) = 2%nat ∧
  length (jets (event (Sample.after [CReadNextEvent] Sample.reader_AB))) = 3%nat.
Proof.
  destruct (decoded_collections_Permutation Sample.reader_AB
              (Sample.after [CReadNextEvent] Sample.reader_AB)
              ltac:(vm_compute; reflexivity)) as (_ & [Hl Hj] & _).
  rewrite Hl, Hj. vm_compute. done.
Defined.

(** *** Names that are not trees *)

(** Construction over a first tree name that the file does not hold as a tree
    throws the error naming the tree and the file, before any event is
    read. *)
Theorem Reader_new_missing_tree (f : TFile) (name : string) (names : list string)
    (mc : bool) (csv : CSVReweighter) (u : Uninitialised) :
  IsZombie f = false →
  (objects f !! name = None ∨ objects f !! name = Some ObjOther) →
  Reader_new (Some f) (name :: names) mc csv u
  = Throw (runtime_error (msg_no_tree name (GetTitle f))).
Proof.
  intros Hz Hobj. unfold Reader_new. rewrite Hz.
  unfold deref_curTreeNameIt. cbn [lookup list_lookup treeNames cursor curTreeNameIt].
  rewrite bind_Ok_l. unfold GetTree.
  change (objects (srcFile _) !! name) with (objects f !! name).
  by destruct Hobj as [->| ->].
Qed.

Lemma Reader_new_missing_tree_witness :
  Reader_new (Some Sample.file) ["Z"; "A"] true Sample.csv Sample.junk
  = Throw (runtime_error (msg_no_tree "Z" "sample.root")).
Proof.
  apply (Reader_new_missing_tree Sample.file "Z" ["A"]); [reflexivity|].
  left. vm_compute. reflexivity.
Defined.

(** A tree name after the first is looked up only when the trees before it
    are used up: at the end of the current tree, with a next name that the
    file does not hold as a tree, [ReadNextEvent] throws the error naming that
    tree and the file. *)
Theorem ReadNextEvent_missing_next_tree (r : Reader) (name : string) :
  curEntry (cursor r) = nEntries (cursor r) →
  treeNames r !! S (curTreeNameIt (cursor r)) = Some name →
  (objects (srcFile r) !! name = None ∨ objects (srcFile r) !! name = Some ObjOther) →
  ReadNextEvent r = Throw (runtime_error (msg_no_tree name (GetTitle (srcFile r)))).
Proof.
  intros He Hname Hobj. apply lookup_lt_Some in Hname as Hlt.
  unfold ReadNextEvent. rewrite decide_True by done. rewrite decide_True by lia.
  cbv zeta.
  change (curTreeNameIt (cursor (set_curTreeNameIt (S (curTreeNameIt (cursor r))) r)))
    with (S (curTreeNameIt (cursor r))).
  change (treeNames (set_curTreeNameIt (S (curTreeNameIt (cursor r))) r))
    with (treeNames r).
  rewrite decide_False by lia.
  rewrite (deref_set_curTreeNameIt _ _ name) by done. rewrite bind_Ok_l.
  unfold GetTree.
  change (objects (srcFile (set_curTreeNameIt _ r)) !! name)
    with (objects (srcFile r) !! name).
  by destruct Hobj as [->| ->].
Qed.

Lemma ReadNextEvent_missing_next_tree_witness :
  replies (read_n 1 Sample.reader_SZ) = Some [RBool true] ∧
  ReadNextEvent (Sample.after [CReadNextEvent] Sample.reader_SZ)
  = Throw (runtime_error (msg_no_tree "Z" "sample.root")).
Proof.
  split; [vm_compute; reflexivity|].
  apply (ReadNextEvent_missing_next_tree (Sample.after [CReadNextEvent] Sample.reader_SZ) "Z");
    [vm_compute; reflexivity..|left; vm_compute; reflexivity].
Defined.

(** *** [Rewind] *)

Lemma Rewind_found r name t :
  treeNames r !! 0%nat = Some name →
  objects (srcFile r) !! name = Some (ObjTree t) →
  Rewind r = Ok (set_weight dbl_one (with_curTreeKey (Some name) (with_cursor (at_start t) r))).
Proof.
  intros Hname Ht. unfold Rewind. cbv zeta.
  change (reset_curTree (set_curTreeNameIt 0 r))
    with (set_curTreeNameIt 0 (reset_curTree r)).
  rewrite (deref_set_curTreeNameIt _ _ name) by done. rewrite bind_Ok_l.
  by rewrite (GetTree_found name _ t) by done.
Qed.

(** On a constructed Reader [Rewind] returns after any calls: its [GetTree]
    finds the tree that the constructor found, so nothing reaches the
    [noexcept] boundary.  It puts the cursor where construction left it and
    keeps the decoded event, the buffers, the selection and the record of the
    model's calls, so the accessors still return the event read last. *)
Theorem Rewind_returns (f : TFile) (names : list string) (mc : bool)
    (csv : CSVReweighter) (u : Uninitialised) (r0 : Reader)
    (cs : list Call) (os : list Reply) (r : Reader) :
  Reader_new (Some f) names mc csv u = Ok r0 →
  calls cs r0 = Ok (os, r) →
  ∃ rw, Rewind r = Ok rw ∧ cursor rw = cursor r0 ∧
    (event rw = event r ∧ buffers rw = buffers r ∧ selection rw = selection r ∧
     csvCalls rw = csvCalls r) ∧
    (GetLeptons rw = GetLeptons r ∧ GetJets rw = GetJets r ∧ GetMET rw = GetMET r ∧
     GetNumPV rw = GetNumPV r).
Proof.
  intros Hnew Hcs.
  apply Reader_new_Ok in Hnew as (name & t & Hname & Ht & Hf & Hn & _ & _ & Hc0 & _).
  destruct (calls_same_setup _ _ _ _ Hcs) as (Hf' & Hn' & _ & _).
  eexists. split.
  - apply (Rewind_found r name t); [by rewrite Hn', Hn|by rewrite Hf', Hf].
  - by rewrite Hc0.
Qed.

Lemma Rewind_returns_witness :
  ∃ rw, Rewind (Sample.after [CReadNextEvent; CReadNextEvent; CReadNextEvent; CReadNextEvent]
                  Sample.reader_AB) = Ok rw ∧
    cursor rw = cursor Sample.reader_AB ∧
    GetLeptons rw = GetLeptons (Sample.after [CReadNextEvent; CReadNextEvent; CReadNextEvent;
                                              CReadNextEvent] Sample.reader_AB).
Proof.
  destruct (Rewind_returns Sample.file ["A"; "B"] true Sample.csv Sample.junk
              Sample.reader_AB
              [CReadNextEvent; CReadNextEvent; CReadNextEvent; CReadNextEvent]
              [RBool true; RBool true; RBool true; RBool true]
              (Sample.after [CReadNextEvent; CReadNextEvent; CReadNextEvent; CReadNextEvent]
                 Sample.reader_AB)
              ltac:(vm_compute; reflexivity) ltac:(vm_compute; reflexivity))
    as (rw & Hrw & Hc & _ & Hl & _).
  by exists rw.
Defined.



(** *** The cursor stays within the entry count *)

Section stream.
Context (f : TFile) (names : list string) (trees : list TTree).
Hypothesis resolved :
  Forall2 (λ name t, objects f !! name = Some (ObjTree t)) names trees.
Hypothesis later_nonempty : Forall (λ t, t ≠ []) (tail trees).

Lemma stream_inv_ext r r' :
  srcFile r' = srcFile r → treeNames r' = treeNames r → cursor r' = cursor r →
  curTreeKey r' = curTreeKey r →
  stream_inv f names trees r → stream_inv f names trees r'.
Proof.
  intros Hf Hn Hc Hk. unfold stream_inv, at_pos, exhausted. by rewrite Hf, Hn, Hc, Hk.
Qed.

Lemma at_pos_not_exhausted r i c : at_pos f names trees r i c → ¬ exhausted r.
Proof.
  intros (_ & Hn & _ & t & Ht & _ & Hcur). unfold exhausted. rewrite Hcur, Hn. cbn.
  apply lookup_lt_Some in Ht. rewrite (Forall2_length _ _ _ resolved). lia.
Qed.

Lemma call_stream_inv c r o r' :
  stream_inv f names trees r → call c r = Ok (o, r') → stream_inv f names trees r'.
Proof.
  intros Hinv H. apply call_Ok_inv in H. destruct c.
  - destruct H as (b & _ & H).
    destruct Hinv as [(i & c & Hf & Hn & Hkey & t & Ht & Hc & Hcur)
                     |(Hf & Hn & Hex & t & Ht & Hne & Hce)].
    + apply ReadNextEvent_Ok in H
        as [(_ & He & Hit & ->)|(_ & r0 & r1 & Hr1 & -> & Hr0)].
      * right. rewrite Hcur in He, Hit. cbn in He, Hit.
        split_and!; [done..|unfold exhausted; cbn; rewrite Hcur; cbn; lia|]. exists t. cbn. rewrite Hcur. cbn.
        split_and!; [done..|lia].
      * apply GetEntry_Ok in Hr1 as (t1 & Ht1 & ->).
        destruct Hr0 as [[Hne ->]
                        |(He & Hlt & name & Hname & (t' & Ht' & Hk & ->)%GetTree_Ok)].
        -- left. exists i, (S c). rewrite Hcur in Hne. cbn in Hne.
           split_and!; [done..|]. exists t. split_and!; [done|lia|].
           cbn. rewrite Hcur. cbn. f_equal. lia.
        -- left. rewrite Hcur in Hname, Hlt. cbn in Hname, Hlt, Ht'.
           rewrite Hn in Hname. rewrite Hf in Ht'.
           destruct (Forall2_lookup_l _ _ _ _ _ resolved Hname) as (t2 & Ht2 & Hobj).
           rewrite Ht' in Hobj. injection Hobj as <-.
           assert (t' ≠ []) as Hne'.
           { apply (proj1 (Forall_lookup _ _) later_nonempty i). by rewrite lookup_tail. }
           exists (S i), 1%nat. split_and!; [done..|].
           exists t'. split_and!; [done|destruct t'; [done|simpl; lia]|].
           cbn. rewrite Hcur. by cbn.
    + unfold exhausted in Hex. unfold ReadNextEvent in H.
      rewrite decide_True in H by lia. by rewrite decide_False in H by lia.
  - destruct H as [_ (name & t & Hname & Ht & ->)%Rewind_Ok].
    assert (srcFile r = f ∧ treeNames r = names) as [Hf Hn].
    { by destruct Hinv as [(? & ? & ? & ? & _)|(? & ? & _)]. }
    rewrite Hn in Hname. rewrite Hf in Ht.
    destruct (Forall2_lookup_l _ _ _ _ _ resolved Hname) as (t0 & Ht0 & Hobj).
    rewrite Ht in Hobj. injection Hobj as <-.
    left. exists 0%nat, 0%nat. split_and!; [done..|]. exists t. split_and!; [done|lia|done].
  - destruct H as [_ ->]. by apply (stream_inv_ext r).
  - destruct H as [_ ->].
    apply (stream_inv_ext r); [| |apply GetWeight_cursor|apply GetWeight_curTreeKey|done].
    + by destruct (GetWeight_same_setup r) as (-> & _).
    + by destruct (GetWeight_same_setup r) as (_ & -> & _).
  - destruct H as [_ ->]. by apply (stream_inv_ext r).
Qed.

Lemma calls_stream_inv cs r os r' :
  stream_inv f names trees r → calls cs r = Ok (os, r') → stream_inv f names trees r'.
Proof.
  revert r os. induction cs as [|c cs IH]; intros r os Hinv H.
  - by injection H as <- <-.
  - apply calls_cons_Ok in H as (o & r1 & os' & H1 & H2 & ->).
    eapply IH; [|done]. by eapply call_stream_inv.
Qed.

Lemma Reader_new_stream_inv mc csv u r0 :
  Reader_new (Some f) names mc csv u = Ok r0 → stream_inv f names trees r0.
Proof.
  intros Hnew. pose proof (Reader_new_curTreeKey _ _ _ _ _ _ Hnew) as Hkey.
  apply Reader_new_Ok in Hnew as (name & t & Hname & Ht & Hf & Hn & _ & _ & Hc0 & _).
  destruct (Forall2_lookup_l _ _ _ _ _ resolved Hname) as (t0 & Ht0 & Hobj).
  rewrite Ht in Hobj. injection Hobj as <-.
  left. exists 0%nat, 0%nat. split_and!; [done..|]. exists t. split_and!; [done|lia|done].
Qed.
End stream.

(** For a constructed Reader whose tree names resolve to [trees], of which
    every one after the first has entries, after any calls: a tree is bound,
    the one the iterator names while the stream is not exhausted, [nEntries]
    is its entry count, and the cursor is within it,
    [0 <= curEntry <= nEntries]. *)
Theorem cursor_within_entry_count (f : TFile) (names : list string) (mc : bool)
    (csv : CSVReweighter) (u : Uninitialised) (r0 : Reader) (trees : list TTree)
    (cs : list Call) (os : list Reply) (r : Reader) :
  Reader_new (Some f) names mc csv u = Ok r0 →
  Forall2 (λ name t, objects f !! name = Some (ObjTree t)) names trees →
  Forall (λ t, t ≠ []) (tail trees) →
  calls cs r0 = Ok (os, r) →
  0 ≤ curEntry (cursor r) ≤ nEntries (cursor r) ∧
  ∃ t, curTree (cursor r) = Some t ∧ nEntries (cursor r) = Z.of_nat (length t) ∧
       (¬ exhausted r → trees !! curTreeNameIt (cursor r) = Some t).
Proof.
  intros Hnew Hres Hne Hcs.
  pose proof (Reader_new_stream_inv f names trees Hres mc csv u r0 Hnew) as Hinv0.
  destruct (calls_stream_inv f names trees Hres Hne cs r0 os r Hinv0 Hcs)
    as [(i & c & _ & _ & _ & t' & Ht' & Hc & Hcur)|(_ & _ & Hex & t' & Ht' & Hn' & Hc')].
  - rewrite Hcur. cbn. split; [lia|]. exists t'. by split_and!.
  - rewrite Hn', Hc'. split; [lia|]. exists t'. by split_and!.
Qed.

Lemma cursor_within_entry_count_witness :
  0 ≤ curEntry (cursor (Sample.after [CReadNextEvent; CReadNextEvent; CReadNextEvent;
                                      CReadNextEvent; CGetWeight] Sample.reader_AB))
    ≤ nEntries (cursor (Sample.after [CReadNextEvent; CReadNextEvent; CReadNextEvent;
                                      CReadNextEvent; CGetWeight] Sample.reader_AB)).
Proof.
  apply (cursor_within_entry_count Sample.file ["A"; "B"] true Sample.csv Sample.junk
           Sample.reader_AB [[Sample.ev1; Sample.ev2; Sample.ev3]; [Sample.ev4; Sample.ev5]]
           [CReadNextEvent; CReadNextEvent; CReadNextEvent; CReadNextEvent; CGetWeight]
           [RBool true; RBool true; RBool true; RBool true; RWeight 0.5]).
  - vm_compute. reflexivity.
  - repeat constructor; vm_compute; reflexivity.
  - repeat constructor; done.
  - vm_compute. reflexivity.
Defined.

(** *** Which calls are defined *)

(** The tree-name list that names one tree twice in a row: the first
    [ReadNextEvent] reads the tree's entry, the second asks the file for the
    tree that is bound, and [curTree.reset] deletes the tree it is given. *)
Example same_tree_twice_in_a_row :
  calls [CReadNextEvent] Sample.reader_SS = Ok ([RBool true], Sample.after [CReadNextEvent] Sample.reader_SS) ∧
  ReadNextEvent (Sample.after [CReadNextEvent] Sample.reader_SS) = Undefined.
Proof. split; vm_compute; reflexivity. Qed.



(** *** Construction and the reweighting switch *)

(** Construction over a usable file whose first tree name names a tree
    succeeds whatever the later names are (they are looked up when their turn
    comes): the cursor is at the start of that tree, the selection is the
    nominal one with direction Up, b-tag reweighting is on, the collections
    are empty until the first [ReadNextEvent], the stored weight is 1 and the
    model has not been called. *)
Theorem construction_defaults (f : TFile) (name : string) (names : list string)
    (mc : bool) (csv : CSVReweighter) (u : Uninitialised) (t : TTree) :
  IsZombie f = false →
  objects f !! name = Some (ObjTree t) →
  ∃ r0, Reader_new (Some f) (name :: names) mc csv u = Ok r0 ∧
    (srcFile r0 = f ∧ treeNames r0 = name :: names ∧ isMC r0 = mc) ∧
    cursor r0 = at_start t ∧
    selection r0 = {| curSystType := Nominal; curSystDirection := Up;
                      applyBTagReweighting := true |} ∧
    (GetLeptons r0 = [] ∧ GetJets r0 = []) ∧
    weight (cache r0) = dbl_one ∧ csvCalls r0 = [].
Proof.
  intros Hz Ht. unfold Reader_new. rewrite Hz.
  unfold deref_curTreeNameIt. cbn [lookup list_lookup treeNames cursor curTreeNameIt].
  rewrite bind_Ok_l. rewrite (GetTree_found name _ t) by done.
  eexists. split; [reflexivity|]. split_and!; try done.
  unfold GetJets. cbn. by destruct mc.
Qed.

Lemma construction_defaults_witness :
  ∃ r0, Reader_new_single (Some Sample.file) "S" true Sample.csv Sample.junk = Ok r0 ∧
    cursor r0 = at_start [Sample.ev1] ∧ GetJets r0 = [].
Proof.
  destruct (construction_defaults Sample.file "S" [] true Sample.csv Sample.junk [Sample.ev1]
              ltac:(reflexivity) ltac:(vm_compute; reflexivity))
    as (r0 & Hr0 & _ & Hc & _ & [_ Hj] & _).
  by exists r0.
Defined.

(** Switching b-tag reweighting off takes effect at the next recomputation:
    for a simulation sample, once [SetSystematics] or a successful
    [ReadNextEvent] has followed the switch, [GetWeight] returns the raw
    weight of the event as stored and does not call the model. *)
Theorem reweighting_off_raw_weight (r : Reader) (t : SystType) (d : SystDirection) :
  isMC r = true →
  ((GetWeight (SetSystematics t d (SwitchBTagReweighting false r))).1 = rawWeight (buffers r) ∧
   csvCalls (GetWeight (SetSystematics t d (SwitchBTagReweighting false r))).2 = csvCalls r) ∧
  (∀ r', ReadNextEvent (SwitchBTagReweighting false r) = Ok (true, r') →
     (GetWeight r').1 = rawWeight (buffers r') ∧ csvCalls (GetWeight r').2 = csvCalls r).
Proof.
  intros Hmc. split.
  - rewrite GetWeight_recompute by done. cbn. by rewrite app_nil_r.
  - intros r' Hr'.
    assert (call CReadNextEvent (SwitchBTagReweighting false r) = Ok (RBool true, r')) as Hcall
      by (cbn; by rewrite Hr').
    destruct (call_same_setup _ _ _ _ Hcall) as (_ & _ & Hmc' & _).
    destruct (call_cache _ _ _ _ Hcall eq_refl) as (Hc & Hl & _).
    pose proof (call_selection _ _ _ _ Hcall) as Hsel. cbn in Hc, Hl, Hsel, Hmc'.
    rewrite andb_false_r in Hc.
    rewrite GetWeight_recompute by congruence. rewrite Hsel. cbn.
    by rewrite app_nil_r.
Qed.

Lemma reweighting_off_raw_weight_witness :
  (GetWeight (Sample.after [CReadNextEvent; CGetWeight] Sample.reader_AB)).1 = 6%float ∧
  (GetWeight (SetSystematics Nominal Up
                (SwitchBTagReweighting false
                   (Sample.after [CReadNextEvent; CGetWeight] Sample.reader_AB)))).1
  = 3%float.
Proof.
  split; [vm_compute; reflexivity|].
  rewrite (proj1 (proj1 (reweighting_off_raw_weight
                           (Sample.after [CReadNextEvent; CGetWeight] Sample.reader_AB)
                           Nominal Up ltac:(vm_compute; reflexivity)))).
  vm_compute. reflexivity.
Defined.
